(** * Session coordinator of the multiplayer arena game (server.js)

    A shallow embedding of the socket handlers of [server.js]: the handlers
    for [joinGame], [playerStateChange], [playerCollideWithCollectible] and
    [disconnect], the process-wide collectible and the player registry they
    act on, and the messages they emit.

    Conventions of the embedding.
    - JavaScript numbers that hold coordinates, sprite indices and the value
      of the collectible are integers and are modelled as [Z].
    - The score of a payload is whatever the client sent: an integer-valued
      number, or any other value; [player.score += collectible.value] is the
      addition of doubles on the first and is left open on the second.
    - An event payload is otherwise a well-formed player record.
    - [socket.emit], [socket.broadcast.emit] and [io.sockets.emit] serialise
      their argument when they are called, so an emission records the value
      its argument has at that moment.
    - The results of [generateStartPos(...)] and [nanoid()] are not determined
      by the program; the k-th call of each returns the k-th element of a
      sequence that is a parameter of the model, and the server state counts
      the calls made so far.
    - The [while] loop of the collision handler is run with fuel. *)

From Stdlib Require Import ZArith Ascii String List Lia.
From stdpp Require Import gmap strings list fin_maps.

Local Open Scope string_scope.
Local Open Scope list_scope.
Local Open Scope Z_scope.

(** ** Data model *)

(** The object returned by [generateStartPos]. *)
Module Pos.
Record t : Type := mk { x : Z; y : Z }.
End Pos.

(** A score: the value of [player.score], which the client supplies. *)
Module Score.
(** A JavaScript number whose value is an integer is [Int]; it is a double,
    so of the integers only those a double holds occur in a payload. Any
    other value (a fraction, a string, [null], [undefined], [Infinity]) is
    [Other], kept as the text of the value. *)
Inductive t : Type :=
| Int (n : Z)
| Other (text : string).

(** The double nearest to an integer, ties to the even significand, as
    IEEE 754 addition rounds an exact sum: integers up to 2^53 are doubles;
    a larger one is rounded to 53 significant bits, and to [Infinity] when
    that reaches 2^1024. *)
Definition nearestDouble (n : Z) : t :=
  let a := Z.abs n in
  if a <=? 2 ^ 53 then Int n
  else
    let ulp := 2 ^ (Z.log2 a - 52) in
    let q := a / ulp in
    let r := a mod ulp in
    let up := (ulp <? 2 * r) || ((ulp =? 2 * r) && Z.odd q) in
    let m := if up then q + 1 else q in
    if 2 ^ 1024 <=? m * ulp
    then Other (if n <? 0 then "-Infinity" else "Infinity")
    else Int (Z.sgn n * (m * ulp)).

(** The integers a double holds. *)
Definition representable (n : Z) : Prop := nearestDouble n = Int n.

(** The integers that round to a finite double. *)
Definition fits (n : Z) : Prop := ∃ r, nearestDouble n = Int r.

(** A score is a natural number. *)
Definition isNatural (x : t) : Prop := ∃ n, x = Int n ∧ 0 ≤ n.

(** The order of scores that are integers. *)
Definition le (x y : t) : Prop :=
  match x, y with
  | Int a, Int b => a ≤ b
  | _, _ => False
  end.
End Score.

(** A player record, as sent by clients and stored in the registry. *)
Module Player.
Record t : Type := mk {
  id : string;
  username : string;
  x : Z;
  y : Z;
  dir : string;
  score : Score.t
}.

(** [player.score = v] on the payload object. *)
Definition with_score (p : t) (v : Score.t) : t :=
  {| id := id p; username := username p; x := x p; y := y p;
     dir := dir p; score := v |}.
End Player.

(** The collectible item. *)
Module Collectible.
Record t : Type := mk {
  x : Z;
  y : Z;
  id : string;
  spriteSrcIndex : Z;
  value : Z
}.

(** The object literal handed to [setState]: a key that is absent from the
    literal is [None]. *)
Record partial : Type := mkPartial {
  new_x : option Z;
  new_y : option Z;
  new_id : option string;
  new_spriteSrcIndex : option Z;
  new_value : option Z
}.

(** Modelled from the spec: [Collectible.mjs] is not part of the sources.
    [setState] is the stateful setter of the collectible; it replaces the
    attributes that the given object carries, in one transition, and keeps
    the others. *)
Definition setState (c : t) (st : partial) : t :=
  {| x := default (x c) (new_x st);
     y := default (y c) (new_y st);
     id := default (id c) (new_id st);
     spriteSrcIndex := default (spriteSrcIndex c) (new_spriteSrcIndex st);
     value := default (value c) (new_value st) |}.
End Collectible.

(** ** Player registry *)

(** Modelled from the spec: [utils/players.js] is not part of the sources.
    The registry is a mapping from connection identity to player record with
    the four operations of the specification; [None] stands for the failure
    [NotFound]. *)
Module Registry.
(** The fields an update carries: position, orientation and score. *)
Definition merge (stored given : Player.t) : Player.t :=
  {| Player.id := Player.id stored;
     Player.username := Player.username stored;
     Player.x := Player.x given;
     Player.y := Player.y given;
     Player.dir := Player.dir given;
     Player.score := Player.score given |}.

(** [join]: stores the draft under its id; a duplicate id is overwritten. *)
Definition join (reg : gmap string Player.t) (draft : Player.t)
  : gmap string Player.t * Player.t :=
  (<[Player.id draft := draft]> reg, draft).

(** [updateState]: merges the given fields into the existing record. *)
Definition updateState (reg : gmap string Player.t) (cid : string)
    (given : Player.t) : option (gmap string Player.t * Player.t) :=
  match reg !! cid with
  | Some stored =>
      let r := merge stored given in Some (<[cid := r]> reg, r)
  | None => None
  end.

(** [leave]: removes and returns the record. *)
Definition leave (reg : gmap string Player.t) (cid : string)
  : option (gmap string Player.t * Player.t) :=
  match reg !! cid with
  | Some stored => Some (delete cid reg, stored)
  | None => None
  end.

(** [all]: a snapshot of every registered player. *)
Definition all (reg : gmap string Player.t) : list Player.t :=
  (map_to_list reg).*2.
End Registry.

(** ** Messages and delivery *)

Module Msg.
Inductive t : Type :=
| currentOpponents (roster : list Player.t)
| collectible (c : Collectible.t)
| newOpponent (p : Player.t)
| opponentStateChange (p : option Player.t)
| scored (score : Score.t)
| opponentLeave (id : string).
End Msg.

(** Who an emission goes to. *)
Inductive Target : Type :=
| ToSender (socket : string)      (* socket.emit *)
| ToOthers (socket : string)      (* socket.broadcast.emit *)
| ToAll.                          (* io.sockets.emit *)

Record Emission : Type := Emit { target : Target; msg : Msg.t }.

(** Whether an emission is delivered to the connection [c]. *)
Definition deliveredTo (c : string) (e : Emission) : bool :=
  match target e with
  | ToSender socket => bool_decide (c = socket)
  | ToOthers socket => bool_decide (c ≠ socket)
  | ToAll => true
  end.

(** The messages a connection receives out of a list of emissions. *)
Definition inbox (c : string) (out : list Emission) : list Msg.t :=
  msg <$> List.filter (deliveredTo c) out.

(** ** Server state and the handler monad *)

Record Server : Type := mkServer {
  players : gmap string Player.t;
  collectible : Collectible.t;
  posCalls : nat;   (* calls of generateStartPos made so far *)
  idCalls : nat     (* calls of nanoid made so far *)
}.

Inductive Error : Type := NotFound | TypeError.

(** The result of running a handler: it returns, or an exception leaves it
    uncaught, both with the state reached and the messages emitted up to
    then; or the fuel of the loop ran out. *)
Inductive Run (A : Type) : Type :=
| Done (a : A) (s : Server) (out : list Emission)
| Uncaught (e : Error) (s : Server) (out : list Emission)
| OutOfFuel.
Arguments Done {A} a s out.
Arguments Uncaught {A} e s out.
Arguments OutOfFuel {A}.

Definition M (A : Type) : Type := Server → Run A.

Definition ret {A} (a : A) : M A := λ s, Done a s [].

Definition bind {A B} (m : M A) (k : A → M B) : M B := λ s,
  match m s with
  | Done a s1 out1 =>
      match k a s1 with
      | Done b s2 out2 => Done b s2 (out1 ++ out2)
      | Uncaught e s2 out2 => Uncaught e s2 (out1 ++ out2)
      | OutOfFuel => OutOfFuel
      end
  | Uncaught e s1 out1 => Uncaught e s1 out1
  | OutOfFuel => OutOfFuel
  end.

(** The handlers are written with stdpp's notation [x ← m; k] and [m;; k]. *)
Global Instance M_ret : MRet M := @ret.
Global Instance M_bind : MBind M := λ A B k m, bind m k.

Definition throw {A} (e : Error) : M A := λ s, Uncaught e s [].
Definition diverge {A} : M A := λ _, OutOfFuel.
Definition emit (t : Target) (m : Msg.t) : M unit := λ s, Done tt s [Emit t m].
Definition readCollectible : M Collectible.t := λ s, Done (collectible s) s [].

Definition set_players (reg : gmap string Player.t) (s : Server) : Server :=
  {| players := reg; collectible := collectible s;
     posCalls := posCalls s; idCalls := idCalls s |}.

Definition set_collectible (c : Collectible.t) (s : Server) : Server :=
  {| players := players s; collectible := c;
     posCalls := posCalls s; idCalls := idCalls s |}.

(** [collectible.setState(st)] on the process-wide collectible. *)
Definition setState (st : Collectible.partial) : M unit := λ s,
  Done tt (set_collectible (Collectible.setState (collectible s) st) s) [].

(** The state and the emissions a run ended with. *)
Definition final {A} (r : Run A) : option Server :=
  match r with
  | Done _ s _ | Uncaught _ s _ => Some s
  | OutOfFuel => None
  end.

Definition sent {A} (r : Run A) : list Emission :=
  match r with
  | Done _ _ out | Uncaught _ _ out => out
  | OutOfFuel => []
  end.

(** How a registry operation that fails with [NotFound] shows in JavaScript:
    it throws, or it returns [undefined]. The specification does not say
    which; the handlers are modelled for both. *)
Inductive NotFoundConvention : Type := Throws | ReturnsUndefined.

(** An inbound event, with the connection it arrives on. *)
Inductive Event : Type :=
| joinGame (socket : string) (player : Player.t)
| playerStateChange (socket : string) (player : Player.t)
| playerCollideWithCollectible (socket : string) (player : Player.t)
| disconnect (socket : string).

(** ** Specification-side notions *)

(** The connections in the [Joined] state after a history of events, in the
    words of the specification: a [joinGame] enters the player's id, a
    [disconnect] removes the connection's id. *)
Fixpoint joinedIds (history : list Event) (joined : gset string)
  : gset string :=
  match history with
  | [] => joined
  | joinGame _ player :: rest => joinedIds rest ({[Player.id player]} ∪ joined)
  | disconnect socket :: rest => joinedIds rest (joined ∖ {[socket]})
  | _ :: rest => joinedIds rest joined
  end.

(** The number of collision events in a history. *)
Fixpoint collisions (history : list Event) : nat :=
  match history with
  | [] => 0%nat
  | playerCollideWithCollectible _ _ :: rest => S (collisions rest)
  | _ :: rest => collisions rest
  end.

(** An honest client: it joins with a score that is a natural number, and
    whatever it sends reports an integer score that is not below the score
    the server has stored for it; when it reports a collision, the score is
    a double and the new score does not overflow the range of a double. *)
Definition honest (s : Server) (e : Event) : Prop :=
  match e with
  | joinGame _ player =>
      Score.isNatural (Player.score player) ∧
      ∀ stored, players s !! Player.id player = Some stored →
                Score.le (Player.score stored) (Player.score player)
  | playerStateChange _ player =>
      ∀ stored, players s !! Player.id player = Some stored →
                Score.le (Player.score stored) (Player.score player)
  | playerCollideWithCollectible _ player =>
      ∀ stored, players s !! Player.id player = Some stored →
                Score.le (Player.score stored) (Player.score player) ∧
                ∃ b, Player.score player = Score.Int b ∧
                     Score.representable b ∧
                     Score.fits (b + Collectible.value (collectible s))
  | disconnect _ => True
  end.

(** The position of the collectible. *)
Definition position (c : Collectible.t) : Pos.t :=
  {| Pos.x := Collectible.x c; Pos.y := Collectible.y c |}.

(** The connection an event arrives on. *)
Definition socketOf (e : Event) : string :=
  match e with
  | joinGame socket _ | playerStateChange socket _
  | playerCollideWithCollectible socket _ | disconnect socket => socket
  end.

(** The collectibles that the [collectible] messages of a list of emissions
    carry, in the order they were emitted. *)
Fixpoint collectiblesSent (out : list Emission) : list Collectible.t :=
  match out with
  | [] => []
  | Emit _ (Msg.collectible c) :: rest => c :: collectiblesSent rest
  | _ :: rest => collectiblesSent rest
  end.

(** The tokens of the collectibles broadcast with [io.sockets.emit]. *)
Fixpoint broadcastTokens (out : list Emission) : list string :=
  match out with
  | [] => []
  | Emit ToAll (Msg.collectible c) :: rest =>
      Collectible.id c :: broadcastTokens rest
  | _ :: rest => broadcastTokens rest
  end.

(** The messages of the events a connection sends itself: answers to it. *)
Definition forSender (m : Msg.t) : bool :=
  match m with
  | Msg.currentOpponents _ | Msg.collectible _ | Msg.scored _ => true
  | _ => false
  end.

(** The messages about the events of another connection. *)
Definition forOthers (m : Msg.t) : bool :=
  match m with
  | Msg.newOpponent _ | Msg.opponentStateChange _ | Msg.opponentLeave _
  | Msg.collectible _ => true
  | _ => false
  end.

(** ** Concrete data for the examples *)

Module Demo.
(** Draws of [generateStartPos]: (5,5) twice, then fresh positions. *)
Definition generateStartPos (k : nat) : Pos.t :=
  match k with
  | 0%nat | 1%nat => {| Pos.x := 5; Pos.y := 5 |}
  | _ => {| Pos.x := Z.of_nat k; Pos.y := 7 |}
  end.

(** Tokens: the k-th token is k letters long. *)
Fixpoint nanoid (k : nat) : string :=
  match k with
  | O => ""
  | S k' => String "a"%char (nanoid k')
  end.

(** An instance of what [+] gives for a score that is not an integer: a
    string, to which the value is appended. *)
Definition plusOther (text : string) (value : Z) : Score.t :=
  Score.Other (text ++ "+").

Definition A : Player.t :=
  {| Player.id := "A"; Player.username := "alice"; Player.x := 10;
     Player.y := 10; Player.dir := "right";
     Player.score := Score.Int 0 |}.

Definition B : Player.t :=
  {| Player.id := "B"; Player.username := "bob"; Player.x := 20;
     Player.y := 20; Player.dir := "left";
     Player.score := Score.Int 0 |}.

(** The scenario of the specification: four sprites, the collectible at
    (5,5) with sprite 2 and value 10. *)
Definition start : Server :=
  {| players := ∅;
     collectible :=
       {| Collectible.x := 5; Collectible.y := 5; Collectible.id := "";
          Collectible.spriteSrcIndex := 2; Collectible.value := 10 |};
     posCalls := 1;
     idCalls := 1 |}.

(** The state after A has joined. *)
Definition withA : Server :=
  set_players (<[ "A" := A ]> ∅) start.

(** A player whose score is the largest odd integer a double holds. *)
Definition R : Player.t :=
  {| Player.id := "R"; Player.username := "rich"; Player.x := 0;
     Player.y := 0; Player.dir := "up";
     Player.score := Score.Int 9007199254740991 |}.

(** The state after R has joined. *)
Definition withR : Server :=
  set_players (<[ "R" := R ]> ∅) start.

(** A player whose score is the largest double. *)
Definition M : Player.t :=
  {| Player.id := "M"; Player.username := "max"; Player.x := 0;
     Player.y := 0; Player.dir := "up";
     Player.score := Score.Int (2 ^ 1024 - 2 ^ 971) |}.
End Demo.

(** ** The coordinator *)

Section Coordinator.

(** What [utils/players.js] does when a record is absent. *)
Variable notFound : NotFoundConvention.
(** [gameConfig.collectibleSprite.srcs.length]. *)
Variable spriteCount : Z.
(** Modelled from the spec: [generateStartPos.mjs] and [gameConfig.mjs] are
    not part of the sources. [generateStartPos(playField, collectibleSprite)]
    samples a position of the valid field; the k-th call returns
    [generateStartPos k]. *)
Variable generateStartPos : nat → Pos.t.
(** The result of the k-th call of [nanoid()]. *)
Variable nanoid : nat → string.
(** What JavaScript's [+] gives for a score that is not an integer-valued
    number and the value of the collectible (a concatenation for a string,
    an addition of doubles for a fraction, [NaN] for [undefined]). *)
Variable plusOther : string → Z → Score.t.
(** [Math.floor(Math.random() * collectibleSprite.srcs.length)] at start. *)
Variable initialSpriteSrcIndex : Z.
(** The value a new [Collectible] gets when the constructor is given none. *)
Variable defaultValue : Z.

Definition callGenerateStartPos : M Pos.t := λ s,
  Done (generateStartPos (posCalls s))
       {| players := players s; collectible := collectible s;
          posCalls := S (posCalls s); idCalls := idCalls s |} [].

Definition callNanoid : M string := λ s,
  Done (nanoid (idCalls s))
       {| players := players s; collectible := collectible s;
          posCalls := posCalls s; idCalls := S (idCalls s) |} [].

(** *** The functions imported from utils/players.js *)

(** Modelled from the spec: [getPlayers] is the registry's [all]. *)
Definition getPlayers : M (list Player.t) := λ s,
  Done (Registry.all (players s)) s [].

(** Modelled from the spec: [playerJoin] is the registry's [join]. *)
Definition playerJoin (player : Player.t) : M Player.t := λ s,
  let '(reg, stored) := Registry.join (players s) player in
  Done stored (set_players reg s) [].

Definition onNotFound : M (option Player.t) :=
  match notFound with
  | Throws => throw NotFound
  | ReturnsUndefined => ret None
  end.

(** Modelled from the spec: [setPlayerState] is the registry's
    [updateState] at the id the given record carries. *)
Definition setPlayerState (player : Player.t) : M (option Player.t) := λ s,
  match Registry.updateState (players s) (Player.id player) player with
  | Some (reg, stored) => Done (Some stored) (set_players reg s) []
  | None => onNotFound s
  end.

(** Modelled from the spec: [playerLeave] is the registry's [leave]. *)
Definition playerLeave (cid : string) : M (option Player.t) := λ s,
  match Registry.leave (players s) cid with
  | Some (reg, stored) => Done (Some stored) (set_players reg s) []
  | None => onNotFound s
  end.

(** *** Process start (server.js, lines 47-58) *)

Definition boot : Server :=
  let collectiblePos := generateStartPos 0 in
  {| players := ∅;
     collectible :=
       {| Collectible.x := Pos.x collectiblePos;
          Collectible.y := Pos.y collectiblePos;
          Collectible.id := nanoid 0;
          Collectible.spriteSrcIndex := initialSpriteSrcIndex;
          Collectible.value := defaultValue |};
     posCalls := 1;
     idCalls := 1 |}.

(** *** The handlers (server.js, lines 61-123) *)

Definition onJoinGame (socket : string) (player : Player.t) : M unit :=
  currentPlayers ← getPlayers;
  emit (ToSender socket) (Msg.currentOpponents currentPlayers);;
  c ← readCollectible;
  emit (ToSender socket) (Msg.collectible c);;
  currentPlayer ← playerJoin player;
  emit (ToOthers socket) (Msg.newOpponent currentPlayer).

Definition onPlayerStateChange (socket : string) (player : Player.t)
  : M unit :=
  updatedPlayer ← setPlayerState player;
  emit (ToOthers socket) (Msg.opponentStateChange updatedPlayer).

(** The condition of the [while] loop. *)
Definition samePos (p : Pos.t) (c : Collectible.t) : bool :=
  (Pos.x p =? Collectible.x c) && (Pos.y p =? Collectible.y c).

(** The [while] loop of lines 94-99, entered with the position drawn at
    line 91; every iteration spends one unit of fuel. *)
Fixpoint resample (fuel : nat) (newCollectiblePos : Pos.t) : M Pos.t :=
  c ← readCollectible;
  if samePos newCollectiblePos c then
    match fuel with
    | O => diverge
    | S fuel' =>
        again ← callGenerateStartPos;
        resample fuel' again
    end
  else ret newCollectiblePos.

(** [score + value] of line 82: on an integer-valued score the exact sum,
    rounded to the nearest double. *)
Definition plusAssign (score : Score.t) (value : Z) : Score.t :=
  match score with
  | Score.Int n => Score.nearestDouble (n + value)
  | Score.Other text => plusOther text value
  end.

(** Lines 103-106. *)
Definition nextSpriteSrcIndex (c : Collectible.t) : Z :=
  if Collectible.spriteSrcIndex c =? spriteCount - 1
  then 0
  else Collectible.spriteSrcIndex c + 1.

Definition onPlayerCollideWithCollectible (fuel : nat) (socket : string)
    (player : Player.t) : M unit :=
  c ← readCollectible;
  let player :=
    Player.with_score player
      (plusAssign (Player.score player) (Collectible.value c)) in
  emit (ToSender socket) (Msg.scored (Player.score player));;
  updatedPlayer ← setPlayerState player;
  emit (ToOthers socket) (Msg.opponentStateChange updatedPlayer);;
  firstPos ← callGenerateStartPos;
  newCollectiblePos ← resample fuel firstPos;
  newCollectibleId ← callNanoid;
  c ← readCollectible;
  let newCollectibleSpriteSrcIndex := nextSpriteSrcIndex c in
  setState {| Collectible.new_x := Some (Pos.x newCollectiblePos);
              Collectible.new_y := Some (Pos.y newCollectiblePos);
              Collectible.new_id := Some newCollectibleId;
              Collectible.new_spriteSrcIndex :=
                Some newCollectibleSpriteSrcIndex;
              Collectible.new_value := None |};;
  c ← readCollectible;
  emit ToAll (Msg.collectible c).

(** [player.id] at line 121 throws a TypeError when [player] is
    [undefined]. *)
Definition onDisconnect (socket : string) : M unit :=
  player ← playerLeave socket;
  match player with
  | Some p => emit (ToOthers socket) (Msg.opponentLeave (Player.id p))
  | None => throw TypeError
  end.

Definition handle (fuel : nat) (e : Event) : M unit :=
  match e with
  | joinGame socket player => onJoinGame socket player
  | playerStateChange socket player => onPlayerStateChange socket player
  | playerCollideWithCollectible socket player =>
      onPlayerCollideWithCollectible fuel socket player
  | disconnect socket => onDisconnect socket
  end.

(** Events are handled one at a time, each to completion; an exception
    that no handler catches ends the process. *)
Fixpoint run (fuel : nat) (events : list Event) : M unit :=
  match events with
  | [] => ret tt
  | e :: rest => handle fuel e;; run fuel rest
  end.

(** The states the server can be in: those a run from process start ends
    in. *)
Definition reachable (s : Server) : Prop :=
  ∃ fuel history out, run fuel history boot = Done tt s out.

(** The states reached when every client is honest. *)
Inductive honestly_reachable : Server → Prop :=
| at_boot : honestly_reachable boot
| after_event s fuel e s' out :
    honestly_reachable s →
    honest s e →
    handle fuel e s = Done tt s' out →
    honestly_reachable s'.

(** Every stored score is a natural number. *)
Definition scoresNonNegative (s : Server) : Prop :=
  ∀ cid stored, players s !! cid = Some stored →
                Score.isNatural (Player.score stored).

(** Every record is stored under the id it carries. *)
Definition keyedById (s : Server) : Prop :=
  ∀ cid stored, players s !! cid = Some stored → Player.id stored = cid.

(** The token of the collectible is the one the latest call of [nanoid]
    returned. *)
Definition tokenIsLatest (s : Server) : Prop :=
  ∃ k, idCalls s = S k ∧ Collectible.id (collectible s) = nanoid k.

(** Modelled from the spec: [generateStartPos] samples "uniformly at random
    from the valid field". Of a uniform sampler the model keeps that, from
    any call on, it produces every position of the field. *)
Definition samplesField (field : list Pos.t) (from : nat) : Prop :=
  ∀ p, p ∈ field → ∃ n, generateStartPos (from + n) = p.

(** ** Properties of the handlers *)

(** Unfolds the monad operations of a handler applied to a state. *)
Ltac unfold_monad :=
  unfold mbind, mret, M_bind, M_ret, bind, ret, emit, throw, diverge,
    readCollectible, setState, callGenerateStartPos, callNanoid,
    getPlayers, playerJoin in *.

(** *** The registry functions *)

Lemma setPlayerState_found player s stored :
  players s !! Player.id player = Some stored →
  setPlayerState player s =
    Done (Some (Registry.merge stored player))
         (set_players (<[Player.id player := Registry.merge stored player]>
                         (players s)) s) [].
Proof.
  intros Hin. unfold setPlayerState, Registry.updateState.
  now rewrite Hin.
Qed.

Lemma setPlayerState_absent player s :
  players s !! Player.id player = None →
  setPlayerState player s = onNotFound s.
Proof.
  intros Hout. unfold setPlayerState, Registry.updateState.
  now rewrite Hout.
Qed.

(** *** The resampling loop *)

(** The loop reads the collectible and draws positions; it changes nothing
    else, emits nothing and throws nothing, and the position it returns is
    not the collectible's. *)
Lemma resample_done fuel : ∀ p s,
  match resample fuel p s with
  | Done q s' out =>
      samePos q (collectible s) = false ∧ out = [] ∧
      players s' = players s ∧ collectible s' = collectible s ∧
      idCalls s' = idCalls s
  | Uncaught _ _ _ => False
  | OutOfFuel => True
  end.
Proof.
  induction fuel as [|fuel IH]; intros p s; cbn; unfold_monad; cbn;
    destruct (samePos p (collectible s)) eqn:Hsame; cbn; auto.
  specialize (IH (generateStartPos (posCalls s))
                 {| players := players s; collectible := collectible s;
                    posCalls := S (posCalls s); idCalls := idCalls s |}).
  cbn in IH.
  destruct (resample _ _ _) as [q s' out| |]; auto.
Qed.

(** The loop returns as soon as a drawn position differs from the
    collectible's: when the [n]-th of the coming draws differs, any fuel
    above [n] is enough. *)
Lemma resample_enough n : ∀ fuel p s,
  samePos (generateStartPos (posCalls s + n)) (collectible s) = false →
  (n < fuel)%nat →
  ∃ q s', resample fuel p s = Done q s' [].
Proof.
  induction n as [|n IH]; intros fuel p s Hdiff Hfuel;
    (destruct fuel as [|fuel]; [lia|]); cbn; unfold_monad; cbn;
    destruct (samePos p (collectible s)) eqn:Hsame; cbn; eauto.
  - rewrite Nat.add_0_r in Hdiff.
    destruct fuel; cbn; unfold_monad; cbn; rewrite Hdiff; cbn; eauto.
  - destruct (IH fuel (generateStartPos (posCalls s))
                 {| players := players s; collectible := collectible s;
                    posCalls := S (posCalls s); idCalls := idCalls s |})
      as (q & s' & Hq); cbn; [|lia|].
    + rewrite <- Hdiff. do 2 f_equal. lia.
    + rewrite Hq. eauto.
Qed.

(** When every coming draw up to the [n]-th equals the collectible's
    position, and so does the position the loop is entered with, fuel [n]
    runs out. *)
Lemma resample_stuck n : ∀ p s,
  samePos p (collectible s) = true →
  (∀ k, (k < n)%nat →
        samePos (generateStartPos (posCalls s + k)) (collectible s) = true) →
  resample n p s = OutOfFuel.
Proof.
  induction n as [|n IH]; intros p s Hp Hall; cbn; unfold_monad; cbn;
    rewrite Hp; cbn; [reflexivity|].
  rewrite IH; cbn; [reflexivity| |].
  - rewrite <- (Nat.add_0_r (posCalls s)). apply Hall. lia.
  - intros k Hk. rewrite <- (Hall (S k)) by lia. do 2 f_equal. lia.
Qed.

(** *** The collision handler *)

(** The collectible after lines 101-113: a new position and token, the next
    sprite, and the value it had. *)
Lemma setState_respawn c p token :
  Collectible.setState c
    {| Collectible.new_x := Some (Pos.x p);
       Collectible.new_y := Some (Pos.y p);
       Collectible.new_id := Some token;
       Collectible.new_spriteSrcIndex := Some (nextSpriteSrcIndex c);
       Collectible.new_value := None |} =
  {| Collectible.x := Pos.x p; Collectible.y := Pos.y p;
     Collectible.id := token;
     Collectible.spriteSrcIndex := nextSpriteSrcIndex c;
     Collectible.value := Collectible.value c |}.
Proof. reflexivity. Qed.

(** What a run of the collision handler looks like. *)
Lemma collide_spec fuel socket player s :
  let c := collectible s in
  let reported :=
    Player.with_score player
      (plusAssign (Player.score player) (Collectible.value c)) in
  let scoredE := Emit (ToSender socket) (Msg.scored (Player.score reported)) in
  match onPlayerCollideWithCollectible fuel socket player s with
  | Done _ s' out =>
      ∃ p updated,
        samePos p c = false ∧
        collectible s' =
          {| Collectible.x := Pos.x p; Collectible.y := Pos.y p;
             Collectible.id := nanoid (idCalls s);
             Collectible.spriteSrcIndex := nextSpriteSrcIndex c;
             Collectible.value := Collectible.value c |} ∧
        idCalls s' = S (idCalls s) ∧
        setPlayerState reported s =
          Done updated (set_players (players s') s) [] ∧
        out = [scoredE;
               Emit (ToOthers socket) (Msg.opponentStateChange updated);
               Emit ToAll (Msg.collectible (collectible s'))]
  | Uncaught e s' out =>
      notFound = Throws ∧ players s !! Player.id player = None ∧
      e = NotFound ∧ s' = s ∧ out = [scoredE]
  | OutOfFuel => True
  end.
Proof.
  cbn zeta. unfold onPlayerCollideWithCollectible. unfold_monad. cbn.
  destruct (players s !! Player.id player) as [stored|] eqn:Hreg.
  - erewrite setPlayerState_found by exact Hreg. cbn.
    match goal with |- context [resample fuel ?p ?t] =>
      pose proof (resample_done fuel p t) as Hloop;
      destruct (resample fuel p t) as [q s2 out2| |] end; cbn;
      [|contradiction|exact I].
    cbn in Hloop. destruct Hloop as (Hq & -> & Hp & Hc & Hi).
    exists q, (Some (Registry.merge stored
      (Player.with_score player
         (plusAssign (Player.score player)
                    (Collectible.value (collectible s)))))).
    rewrite Hc, Hi, Hp. cbn. repeat split; auto.
  - rewrite setPlayerState_absent by exact Hreg.
    unfold onNotFound. destruct notFound; unfold_monad; cbn;
      [repeat split; auto|].
    match goal with |- context [resample fuel ?p ?t] =>
      pose proof (resample_done fuel p t) as Hloop;
      destruct (resample fuel p t) as [q s2 out2| |] end; cbn;
      [|contradiction|exact I].
    cbn in Hloop. destruct Hloop as (Hq & -> & Hp & Hc & Hi).
    exists q, None. rewrite Hc, Hi, Hp. cbn.
    destruct s; repeat split; auto.
Qed.

(** The handler runs out of fuel only in the loop: when the [n]-th of the
    coming draws differs from the collectible's position, fuel [n] lets the
    handler finish. *)
Lemma collide_terminates n fuel socket player s :
  samePos (generateStartPos (posCalls s + n)) (collectible s) = false →
  (n ≤ fuel)%nat →
  onPlayerCollideWithCollectible fuel socket player s ≠ OutOfFuel.
Proof.
  intros Hdiff Hfuel.
  assert (∀ t, posCalls t = posCalls s → collectible t = collectible s →
            ∃ q t', resample fuel (generateStartPos (posCalls t))
                      {| players := players t; collectible := collectible t;
                         posCalls := S (posCalls t); idCalls := idCalls t |}
                    = Done q t' []) as Hloop.
  { intros t Hp Hc. destruct n as [|n].
    - rewrite Nat.add_0_r in Hdiff. exists (generateStartPos (posCalls t)).
      destruct fuel; cbn; unfold_monad; cbn; rewrite Hp, Hc, Hdiff; cbn; eauto.
    - apply (resample_enough n); cbn; [|lia].
      rewrite Hp, Hc, <- Hdiff. do 2 f_equal. lia. }
  unfold onPlayerCollideWithCollectible. unfold_monad. cbn.
  destruct (players s !! Player.id player) as [stored|] eqn:Hreg.
  - erewrite setPlayerState_found by exact Hreg. cbn.
    match goal with |- context [resample fuel _ ?t] =>
      destruct (Hloop (set_players (players t) s)) as (q & t' & Hq);
        [reflexivity..|] end.
    cbn in Hq. rewrite Hq. discriminate.
  - rewrite setPlayerState_absent by exact Hreg.
    unfold onNotFound. destruct notFound; unfold_monad; cbn; [discriminate|].
    destruct (Hloop s) as (q & t' & Hq); [reflexivity..|].
    destruct s; cbn in *. rewrite Hq. discriminate.
Qed.

(** *** The other handlers *)

Lemma join_spec socket player s :
  onJoinGame socket player s =
    Done tt (set_players (<[Player.id player := player]> (players s)) s)
      [Emit (ToSender socket) (Msg.currentOpponents (Registry.all (players s)));
       Emit (ToSender socket) (Msg.collectible (collectible s));
       Emit (ToOthers socket) (Msg.newOpponent player)].
Proof. reflexivity. Qed.

Lemma stateChange_found socket player s stored :
  players s !! Player.id player = Some stored →
  onPlayerStateChange socket player s =
    Done tt
      (set_players (<[Player.id player := Registry.merge stored player]>
                      (players s)) s)
      [Emit (ToOthers socket)
            (Msg.opponentStateChange (Some (Registry.merge stored player)))].
Proof.
  intros Hreg. unfold onPlayerStateChange. unfold_monad.
  now rewrite (setPlayerState_found _ _ _ Hreg).
Qed.

Lemma stateChange_absent socket player s :
  players s !! Player.id player = None →
  onPlayerStateChange socket player s =
    match notFound with
    | Throws => Uncaught NotFound s []
    | ReturnsUndefined =>
        Done tt s [Emit (ToOthers socket) (Msg.opponentStateChange None)]
    end.
Proof.
  intros Hreg. unfold onPlayerStateChange. unfold_monad.
  rewrite (setPlayerState_absent _ _ Hreg). unfold onNotFound.
  now destruct notFound.
Qed.

Lemma disconnect_found socket s stored :
  players s !! socket = Some stored →
  onDisconnect socket s =
    Done tt (set_players (delete socket (players s)) s)
      [Emit (ToOthers socket) (Msg.opponentLeave (Player.id stored))].
Proof.
  intros Hreg. unfold onDisconnect, playerLeave, Registry.leave.
  unfold_monad. now rewrite Hreg.
Qed.

Lemma disconnect_absent socket s :
  players s !! socket = None →
  onDisconnect socket s =
    Uncaught (match notFound with
              | Throws => NotFound
              | ReturnsUndefined => TypeError
              end) s [].
Proof.
  intros Hreg. unfold onDisconnect, playerLeave, Registry.leave, onNotFound.
  unfold_monad. rewrite Hreg. now destruct notFound.
Qed.

(** *** One step of the coordinator *)

(** What a handler that returned has done to the state. *)
Lemma handle_done fuel e s s' out :
  handle fuel e s = Done tt s' out →
  match e with
  | joinGame _ player =>
      players s' = <[Player.id player := player]> (players s) ∧
      collectible s' = collectible s ∧ idCalls s' = idCalls s
  | playerStateChange _ player =>
      players s' =
        match players s !! Player.id player with
        | Some stored =>
            <[Player.id player := Registry.merge stored player]> (players s)
        | None => players s
        end ∧
      collectible s' = collectible s ∧ idCalls s' = idCalls s
  | playerCollideWithCollectible _ player =>
      players s' =
        match players s !! Player.id player with
        | Some stored =>
            <[Player.id player :=
                Registry.merge stored
                  (Player.with_score player
                     (plusAssign (Player.score player)
                    (Collectible.value (collectible s))))]> (players s)
        | None => players s
        end ∧
      (∃ p, samePos p (collectible s) = false ∧
            collectible s' =
              {| Collectible.x := Pos.x p; Collectible.y := Pos.y p;
                 Collectible.id := nanoid (idCalls s);
                 Collectible.spriteSrcIndex :=
                   nextSpriteSrcIndex (collectible s);
                 Collectible.value := Collectible.value (collectible s) |}) ∧
      idCalls s' = S (idCalls s)
  | disconnect socket =>
      is_Some (players s !! socket) ∧
      players s' = delete socket (players s) ∧
      collectible s' = collectible s ∧ idCalls s' = idCalls s
  end.
Proof.
  destruct e as [socket player|socket player|socket player|socket]; cbn.
  - rewrite join_spec. intros [= <- _]. auto.
  - destruct (players s !! Player.id player) as [stored|] eqn:Hreg.
    + rewrite (stateChange_found _ _ _ _ Hreg). intros [= <- _]. auto.
    + rewrite (stateChange_absent _ _ _ Hreg).
      destruct notFound; [discriminate|]. intros [= <- _]. auto.
  - intros Hrun. pose proof (collide_spec fuel socket player s) as Hspec.
    cbn zeta in Hspec. rewrite Hrun in Hspec.
    destruct Hspec as (p & updated & Hp & Hc & Hi & Hset & _).
    repeat split; eauto.
    destruct (players s !! Player.id player) as [stored|] eqn:Hreg.
    + erewrite setPlayerState_found in Hset by exact Hreg.
      now injection Hset as _ Hset.
    + rewrite setPlayerState_absent in Hset by exact Hreg.
      unfold onNotFound in Hset.
      destruct notFound; [discriminate|]. unfold_monad.
      injection Hset as _ Hset.
          apply (f_equal players) in Hset. now cbn in Hset.
  - destruct (players s !! socket) as [stored|] eqn:Hreg.
    + rewrite (disconnect_found _ _ _ Hreg). intros [= <- _]. eauto.
    + rewrite (disconnect_absent _ _ Hreg). discriminate.
Qed.

(** A handler that throws has not changed the state. *)
Lemma handle_uncaught fuel e s err s' out :
  handle fuel e s = Uncaught err s' out → s' = s.
Proof.
  destruct e as [socket player|socket player|socket player|socket]; cbn.
  - rewrite join_spec. discriminate.
  - destruct (players s !! Player.id player) as [stored|] eqn:Hreg.
    + rewrite (stateChange_found _ _ _ _ Hreg). discriminate.
    + rewrite (stateChange_absent _ _ _ Hreg).
      destruct notFound; [|discriminate]. now intros [= _ <- _].
  - intros Hrun. pose proof (collide_spec fuel socket player s) as Hspec.
    cbn zeta in Hspec. rewrite Hrun in Hspec. tauto.
  - destruct (players s !! socket) as [stored|] eqn:Hreg.
    + rewrite (disconnect_found _ _ _ Hreg). discriminate.
    + rewrite (disconnect_absent _ _ Hreg). now intros [= _ <- _].
Qed.

(** *** Runs *)

Lemma run_cons fuel e rest s :
  run fuel (e :: rest) s =
    match handle fuel e s with
    | Done _ s1 out1 =>
        match run fuel rest s1 with
        | Done b s2 out2 => Done b s2 (out1 ++ out2)
        | Uncaught err s2 out2 => Uncaught err s2 (out1 ++ out2)
        | OutOfFuel => OutOfFuel
        end
    | Uncaught err s1 out1 => Uncaught err s1 out1
    | OutOfFuel => OutOfFuel
    end.
Proof. reflexivity. Qed.

(** A run that returned is a first step that returned, followed by a run
    that returned. *)
Lemma run_cons_done fuel e rest s s' out :
  run fuel (e :: rest) s = Done tt s' out →
  ∃ s1 out1 out2,
    handle fuel e s = Done tt s1 out1 ∧
    run fuel rest s1 = Done tt s' out2 ∧ out = out1 ++ out2.
Proof.
  rewrite run_cons.
  destruct (handle fuel e s) as [[] s1 out1| |]; [|discriminate..].
  destruct (run fuel rest s1) as [[] s2 out2| |] eqn:Hrest; [|discriminate..].
  intros [= <- <-]. exists s1, out1, out2. auto.
Qed.

(** A property that every step preserves, whether the handler returns or
    throws, holds in the state any run ends in. *)
Lemma run_preserves (P : Server → Prop) fuel :
  (∀ e s s', P s → final (handle fuel e s) = Some s' → P s') →
  ∀ events s s', P s → final (run fuel events s) = Some s' → P s'.
Proof.
  intros Hstep. induction events as [|e rest IH]; intros s s' HP.
  - cbn. now intros [= <-].
  - rewrite run_cons.
    destruct (handle fuel e s) as [[] s1 out1|err s1 out1|] eqn:He; cbn.
    + assert (P s1) as HP1 by (eapply Hstep; [exact HP|now rewrite He]).
      specialize (IH s1 s' HP1).
      destruct (run fuel rest s1) as [[] s2 out2|err s2 out2|];
        cbn in *; auto.
    + intros [= <-]. eapply Hstep; [exact HP|now rewrite He].
    + discriminate.
Qed.

(** *** The sprite index *)

Lemma nextSpriteSrcIndex_mod c :
  0 ≤ Collectible.spriteSrcIndex c < spriteCount →
  nextSpriteSrcIndex c = (Collectible.spriteSrcIndex c + 1) mod spriteCount.
Proof.
  intros Hrange. unfold nextSpriteSrcIndex.
  destruct (Z.eqb_spec (Collectible.spriteSrcIndex c) (spriteCount - 1))
    as [Hlast|Hnot].
  - replace (Collectible.spriteSrcIndex c + 1) with spriteCount by lia.
    symmetry. apply Z_mod_same_full.
  - symmetry. apply Z.mod_small. lia.
Qed.

(** ** The claims *)

(** C10. Every respawn leaves the value of the collectible as it was:
    [setState] is given [x], [y], [id] and [spriteSrcIndex] and no value, so
    in the state any sequence of events ends in, whether the last handler
    returned or threw, the collectible has the value it started with. *)
Theorem C10_respawn_keeps_value fuel events s s' :
  final (run fuel events s) = Some s' →
  Collectible.value (collectible s') = Collectible.value (collectible s).
Proof.
  apply (run_preserves
           (λ t, Collectible.value (collectible t) =
                 Collectible.value (collectible s)) fuel); [|reflexivity].
  clear s'. intros e t t' Hvalue Hfinal.
  destruct (handle fuel e t) as [[] t1 out|err t1 out|] eqn:He;
    cbn in Hfinal; [| |discriminate]; injection Hfinal as ->.
  - apply handle_done in He.
    destruct e; cbn in He.
    + destruct He as (_ & -> & _). exact Hvalue.
    + destruct He as (_ & -> & _). exact Hvalue.
    + destruct He as (_ & (p & _ & ->) & _). exact Hvalue.
    + destruct He as (_ & _ & -> & _). exact Hvalue.
  - apply handle_uncaught in He. now subst.
Qed.

(** C6. When the sprite index starts as a natural number below the sprite
    count, it is [(initialIndex + N) mod spriteCount] after a run with [N]
    collisions: every collision of a run that returned respawned the
    collectible once (one call of [nanoid] each), each respawn moved the
    index one step further, wrapping to 0 after the last sprite. *)
Theorem C6_sprite_index_cycles fuel events : ∀ s s' out,
  0 ≤ Collectible.spriteSrcIndex (collectible s) < spriteCount →
  run fuel events s = Done tt s' out →
  Collectible.spriteSrcIndex (collectible s') =
    (Collectible.spriteSrcIndex (collectible s) + Z.of_nat (collisions events))
      mod spriteCount ∧
  idCalls s' = (idCalls s + collisions events)%nat.
Proof.
  induction events as [|e rest IH]; intros s s' out Hrange Hrun.
  - cbn in Hrun. injection Hrun as <- _. cbn.
    rewrite Z.add_0_r, Z.mod_small by lia. split; [reflexivity|lia].
  - apply run_cons_done in Hrun as (s1 & out1 & out2 & He & Hrest & _).
    apply handle_done in He.
    assert (Collectible.spriteSrcIndex (collectible s1) =
              (Collectible.spriteSrcIndex (collectible s) +
               Z.of_nat (collisions [e])) mod spriteCount ∧
            idCalls s1 = (idCalls s + collisions [e])%nat) as [Hidx Hids].
    { destruct e; cbn in He |- *.
      - destruct He as (_ & -> & ->).
        rewrite Z.add_0_r, Z.mod_small by lia. split; [reflexivity|lia].
      - destruct He as (_ & -> & ->).
        rewrite Z.add_0_r, Z.mod_small by lia. split; [reflexivity|lia].
      - destruct He as (_ & (p & _ & ->) & ->). cbn.
        split; [now apply nextSpriteSrcIndex_mod|lia].
      - destruct He as (_ & _ & -> & ->).
        rewrite Z.add_0_r, Z.mod_small by lia. split; [reflexivity|lia]. }
    destruct (IH s1 s' out2) as [Hidx' Hids']; [|exact Hrest|].
    + rewrite Hidx. apply Z.mod_pos_bound. lia.
    + split.
      * rewrite Hidx', Hidx, Z.add_mod_idemp_l by lia. f_equal.
        destruct e; cbn; lia.
      * rewrite Hids', Hids. destruct e; cbn; lia.
Qed.

(** [samePos] decides equality of the two coordinates. *)
Lemma samePos_false p c :
  samePos p c = false ↔ p ≠ position c.
Proof.
  unfold samePos, position. destruct p as [px py]. cbn.
  rewrite andb_false_iff, !Z.eqb_neq. split.
  - intros Hne [= Hx Hy]. lia.
  - intros Hne.
    destruct (Z.eq_dec px (Collectible.x c)) as [->|]; [|now left].
    right. intros ->. now apply Hne.
Qed.

(** C4. Every respawn a collision triggers moves the collectible: after a
    collision handler that returned, the position of the collectible is not
    the position it had before, so it differs in [x] or in [y]. *)
Theorem C4_respawn_moves_collectible fuel socket player s s' out :
  onPlayerCollideWithCollectible fuel socket player s = Done tt s' out →
  position (collectible s') ≠ position (collectible s) ∧
  (Collectible.x (collectible s') ≠ Collectible.x (collectible s) ∨
   Collectible.y (collectible s') ≠ Collectible.y (collectible s)).
Proof.
  intros Hrun.
  apply (handle_done fuel (playerCollideWithCollectible socket player))
    in Hrun.
  destruct Hrun as (_ & (p & Hp & ->) & _). cbn.
  unfold samePos in Hp. apply andb_false_iff in Hp.
  rewrite !Z.eqb_neq in Hp. split; [|exact Hp].
  unfold position. cbn. intros [= Hx Hy]. lia.
Qed.

(** C5. When the field of valid positions has a position other than the
    collectible's, and the sampler produces every position of the field (a
    uniform sampler misses one with probability zero), the loop of the
    collision handler ends: from some amount of fuel on the handler never
    runs out of it, and the event is processed to completion. The handler
    returns, unless the registry throws for a missing record before the
    loop is reached. *)
Theorem C5_resampling_terminates (field : list Pos.t) socket player s :
  (∃ p, p ∈ field ∧ p ≠ position (collectible s)) →
  samplesField field (posCalls s) →
  ∃ enough, ∀ fuel, (enough ≤ fuel)%nat →
    ∃ s' out,
      onPlayerCollideWithCollectible fuel socket player s = Done tt s' out ∨
      (notFound = Throws ∧ players s !! Player.id player = None ∧
       onPlayerCollideWithCollectible fuel socket player s =
         Uncaught NotFound s' out).
Proof.
  intros (p & Hin & Hne) Hfair.
  destruct (Hfair p Hin) as (n & Hn).
  exists n. intros fuel Hfuel.
  assert (samePos (generateStartPos (posCalls s + n)) (collectible s) = false)
    as Hdiff by (rewrite Hn; now apply samePos_false).
  pose proof (collide_terminates n fuel socket player s Hdiff Hfuel) as Hends.
  pose proof (collide_spec fuel socket player s) as Hspec. cbn zeta in Hspec.
  destruct (onPlayerCollideWithCollectible fuel socket player s)
    as [[] s' out|err s' out|]; [eauto| |contradiction].
  destruct Hspec as (Hconv & Hreg & -> & _). eauto 6.
Qed.

(** C9. The scopes of the collision handler. A collision handler that
    returned has emitted three messages: the sending connection receives
    [scored] and [collectible], every other connection receives
    [opponentStateChange] and [collectible]; so [scored] goes to the sender
    only, [opponentStateChange] to all but the sender, and [collectible] to
    all. *)
Theorem C9_collision_scopes fuel socket player s s' out :
  onPlayerCollideWithCollectible fuel socket player s = Done tt s' out →
  ∃ updated,
    out = [Emit (ToSender socket)
             (Msg.scored (plusAssign (Player.score player)
                    (Collectible.value (collectible s))));
           Emit (ToOthers socket) (Msg.opponentStateChange updated);
           Emit ToAll (Msg.collectible (collectible s'))] ∧
    ∀ connection,
      inbox connection out =
        if bool_decide (connection = socket)
        then [Msg.scored (plusAssign (Player.score player)
                    (Collectible.value (collectible s)));
              Msg.collectible (collectible s')]
        else [Msg.opponentStateChange updated;
              Msg.collectible (collectible s')].
Proof.
  intros Hrun. pose proof (collide_spec fuel socket player s) as Hspec.
  cbn zeta in Hspec. rewrite Hrun in Hspec.
  destruct Hspec as (p & updated & _ & _ & _ & _ & ->).
  exists updated. split; [reflexivity|].
  intros connection. unfold inbox, deliveredTo. cbn.
  destruct (decide (connection = socket)) as [->|Hother].
  - rewrite !bool_decide_eq_true_2 by auto.
    now rewrite bool_decide_eq_false_2 by auto.
  - rewrite !(bool_decide_eq_false_2 (connection = socket)) by auto.
    now rewrite bool_decide_eq_true_2 by auto.
Qed.

(** C2, amended. An event for an id with no record leaves the registry as it
    was, for [playerStateChange] and for [playerCollideWithCollectible]. It
    is not silent: the collision handler sends [scored] to the sender before
    it consults the registry. The fuel covers the draws of the loop: the
    [n]-th coming draw is not the collectible's position. *)
Theorem C2_unknown_id_keeps_registry n fuel socket player s :
  players s !! Player.id player = None →
  samePos (generateStartPos (posCalls s + n)) (collectible s) = false →
  (n ≤ fuel)%nat →
  final (onPlayerStateChange socket player s) = Some s ∧
  ∃ s' rest,
    final (onPlayerCollideWithCollectible fuel socket player s) = Some s' ∧
    players s' = players s ∧
    sent (onPlayerCollideWithCollectible fuel socket player s) =
      Emit (ToSender socket)
           (Msg.scored (plusAssign (Player.score player)
                    (Collectible.value (collectible s)))) :: rest.
Proof.
  intros Hreg Hdiff Hfuel. split.
  - rewrite (stateChange_absent _ _ _ Hreg). now destruct notFound.
  - pose proof (collide_terminates n fuel socket player s Hdiff Hfuel)
      as Hends.
    pose proof (collide_spec fuel socket player s) as Hspec.
    cbn zeta in Hspec.
    destruct (onPlayerCollideWithCollectible fuel socket player s)
      as [[] s' out|err s' out|] eqn:Hrun; [| |contradiction]; cbn.
    + apply (handle_done fuel (playerCollideWithCollectible socket player))
        in Hrun.
      cbn in Hrun. rewrite Hreg in Hrun. destruct Hrun as (Hplayers & _).
      destruct Hspec as (p & updated & _ & _ & _ & _ & ->). eauto.
    + destruct Hspec as (_ & _ & _ & -> & ->). eauto.
Qed.

(** *** Invariants of the reachable states *)

Lemma step_keeps_token fuel e s s' :
  tokenIsLatest s → final (handle fuel e s) = Some s' → tokenIsLatest s'.
Proof.
  intros (k & Hk & Htok) Hfinal.
  destruct (handle fuel e s) as [[] t out|err t out|] eqn:He;
    cbn in Hfinal; [| |discriminate]; injection Hfinal as ->.
  - apply handle_done in He. destruct e; cbn in He.
    + destruct He as (_ & Hc & Hi). exists k. now rewrite Hc, Hi.
    + destruct He as (_ & Hc & Hi). exists k. now rewrite Hc, Hi.
    + destruct He as (_ & (p & _ & Hc) & Hi). exists (idCalls s).
      now rewrite Hc, Hi.
    + destruct He as (_ & _ & Hc & Hi). exists k. now rewrite Hc, Hi.
  - apply handle_uncaught in He. subst. now exists k.
Qed.

Lemma step_keeps_keys fuel e s s' :
  keyedById s → final (handle fuel e s) = Some s' → keyedById s'.
Proof.
  intros Hkeys Hfinal.
  destruct (handle fuel e s) as [[] t out|err t out|] eqn:He;
    cbn in Hfinal; [| |discriminate]; injection Hfinal as ->.
  - apply handle_done in He. intros cid stored'.
    destruct e as [socket player|socket player|socket player|socket];
      cbn in He.
    + destruct He as (-> & _). rewrite lookup_insert.
      case_decide; [intros [= <-]; congruence|apply Hkeys].
    + destruct He as (-> & _).
      destruct (players s !! Player.id player) as [stored|] eqn:Hreg;
        [|apply Hkeys].
      rewrite lookup_insert.
      case_decide; [intros [= <-]; cbn|apply Hkeys].
      rewrite (Hkeys _ _ Hreg). congruence.
    + destruct He as (-> & _).
      destruct (players s !! Player.id player) as [stored|] eqn:Hreg;
        [|apply Hkeys].
      rewrite lookup_insert.
      case_decide; [intros [= <-]; cbn|apply Hkeys].
      rewrite (Hkeys _ _ Hreg). congruence.
    + destruct He as (_ & -> & _). rewrite lookup_delete.
      case_decide; [discriminate|apply Hkeys].
  - apply handle_uncaught in He. now subst.
Qed.

Lemma reachable_token s : reachable s → tokenIsLatest s.
Proof.
  intros (fuel & history & out & Hrun).
  apply (run_preserves tokenIsLatest fuel (step_keeps_token fuel)
           history boot).
  - now exists 0%nat.
  - now rewrite Hrun.
Qed.

Lemma reachable_keys s : reachable s → keyedById s.
Proof.
  intros (fuel & history & out & Hrun).
  apply (run_preserves keyedById fuel (step_keeps_keys fuel) history boot).
  - intros cid stored. cbn. now rewrite lookup_empty.
  - now rewrite Hrun.
Qed.

(** The registry holds the connections that joined and did not leave. *)
Lemma run_joined fuel history : ∀ s s' out,
  run fuel history s = Done tt s' out →
  dom (players s') = joinedIds history (dom (players s)).
Proof.
  induction history as [|e rest IH]; intros s s' out Hrun.
  - cbn in Hrun. now injection Hrun as <- _.
  - apply run_cons_done in Hrun as (s1 & out1 & out2 & He & Hrest & _).
    rewrite (IH _ _ _ Hrest). apply handle_done in He.
    destruct e as [socket player|socket player|socket player|socket];
      cbn in He |- *.
    + destruct He as (-> & _). now rewrite dom_insert_L.
    + destruct He as (-> & _).
      destruct (players s !! Player.id player) as [stored|] eqn:Hreg;
        [|reflexivity].
      rewrite dom_insert_L. f_equal.
      apply (elem_of_dom_2 (D := gset string)) in Hreg.
      apply subseteq_union_1_L. now apply singleton_subseteq_l.
    + destruct He as (-> & _).
      destruct (players s !! Player.id player) as [stored|] eqn:Hreg;
        [|reflexivity].
      rewrite dom_insert_L. f_equal.
      apply (elem_of_dom_2 (D := gset string)) in Hreg.
      apply subseteq_union_1_L. now apply singleton_subseteq_l.
    + destruct He as (_ & -> & _). now rewrite dom_delete_L.
Qed.

(** C1, amended. A collision event for a registered id whose payload reports
    the score the registry holds for it, an integer (and a double, as every
    number of a payload is), raises the stored score by exactly the value
    the collectible has when the event is handled, when the sum is an
    integer a double holds (every integer up to 2^53 is one),
    and emits [scored], [opponentStateChange] and one [collectible]
    broadcast. With a [nanoid] that never returns a token twice, the token
    that is broadcast is not the token the collectible had before. The fuel
    covers the draws of the loop: the [n]-th coming draw is not the
    collectible's position. *)
Theorem C1_collision_scores_reported_plus_value
    n fuel socket player s stored a :
  (∀ i j, nanoid i = nanoid j → i = j) →
  reachable s →
  players s !! Player.id player = Some stored →
  Player.score stored = Score.Int a →
  Player.score player = Score.Int a →
  Score.representable a →
  Score.representable (a + Collectible.value (collectible s)) →
  samePos (generateStartPos (posCalls s + n)) (collectible s) = false →
  (n ≤ fuel)%nat →
  ∃ s' stored',
    onPlayerCollideWithCollectible fuel socket player s =
      Done tt s'
        [Emit (ToSender socket) (Msg.scored (Player.score stored'));
         Emit (ToOthers socket) (Msg.opponentStateChange (Some stored'));
         Emit ToAll (Msg.collectible (collectible s'))] ∧
    players s' !! Player.id player = Some stored' ∧
    Player.score stored' =
      Score.Int (a + Collectible.value (collectible s)) ∧
    Collectible.id (collectible s') ≠ Collectible.id (collectible s).
Proof.
  intros Hinj Hreach Hreg Hstored Hscore _ Hsum Hdiff Hfuel.
  pose proof (collide_terminates n fuel socket player s Hdiff Hfuel) as Hends.
  pose proof (collide_spec fuel socket player s) as Hspec. cbn zeta in Hspec.
  destruct (onPlayerCollideWithCollectible fuel socket player s)
    as [[] s' out|err s' out|] eqn:Hrun; [| |contradiction].
  - destruct Hspec as (p & updated & _ & Hc & Hi & Hset & ->).
    erewrite setPlayerState_found in Hset by exact Hreg.
    injection Hset as <- Hplayers.
    exists s', (Registry.merge stored
                 (Player.with_score player
                    (plusAssign (Player.score player)
                       (Collectible.value (collectible s))))).
    split; [reflexivity|].
    rewrite <- Hplayers, lookup_insert_eq. split; [reflexivity|]. cbn.
    split; [rewrite Hscore; exact Hsum|].
    destruct (reachable_token s Hreach) as (k & Hk & Htok).
    rewrite Hc, Htok, Hk. cbn. intros Heq. apply Hinj in Heq. lia.
  - destruct Hspec as (_ & Hnone & _). congruence.
Qed.

(** The ids of the roster are the keys of the registry, each once. *)
Lemma roster_ids s :
  keyedById s →
  Player.id <$> Registry.all (players s) = (map_to_list (players s)).*1.
Proof.
  intros Hkeys. unfold Registry.all. rewrite <- list_fmap_compose.
  apply list_fmap_ext. intros i [cid stored] Hi. cbn.
  apply Hkeys. apply elem_of_map_to_list. now apply list_elem_of_lookup_2 in Hi.
Qed.

(** C3, amended. A [joinGame] for an id that has no record: the joining
    connection receives [currentOpponents] and [collectible], in this order
    and nothing else; the roster holds exactly the records of the players
    that joined before and did not disconnect, each once, and not the
    joining player; every other connection receives exactly one
    [newOpponent] with the record of the new player. *)
Theorem C3_join_roster_and_scopes fuel history s out socket player :
  run fuel history boot = Done tt s out →
  Player.id player ∉ joinedIds history ∅ →
  ∃ roster,
    (∀ opponent, opponent ∈ roster ↔
       ∃ cid, cid ∈ joinedIds history ∅ ∧
              players s !! cid = Some opponent) ∧
    NoDup (Player.id <$> roster) ∧
    (∀ cid, cid ∈ (Player.id <$> roster) ↔ cid ∈ joinedIds history ∅) ∧
    (Player.id player ∉ (Player.id <$> roster)) ∧
    ∀ connection,
      inbox connection (sent (onJoinGame socket player s)) =
        if bool_decide (connection = socket)
        then [Msg.currentOpponents roster;
              Msg.collectible (collectible s)]
        else [Msg.newOpponent player].
Proof.
  intros Hrun Hnew.
  assert (keyedById s) as Hkeys
      by (apply reachable_keys; now exists fuel, history, out).
  pose proof (run_joined _ _ _ _ _ Hrun) as Hdom.
  cbn in Hdom. rewrite dom_empty_L in Hdom.
  assert (∀ cid, cid ∈ (Player.id <$> Registry.all (players s)) ↔
                 cid ∈ joinedIds history ∅) as Hids.
  { intros cid. rewrite (roster_ids s Hkeys), <- Hdom, elem_of_dom.
    rewrite list_elem_of_fmap. split.
    - intros ([cid' stored] & -> & Hin). apply elem_of_map_to_list in Hin.
      now exists stored.
    - intros [stored Hin]. exists (cid, stored). split; [reflexivity|].
      now apply elem_of_map_to_list. }
  exists (Registry.all (players s)). repeat split.
  - unfold Registry.all. rewrite list_elem_of_fmap.
    intros ([cid stored] & -> & Hin). apply elem_of_map_to_list in Hin.
    exists cid. split; [|exact Hin].
    rewrite <- Hdom. apply elem_of_dom. now exists stored.
  - intros (cid & _ & Hin). unfold Registry.all. rewrite list_elem_of_fmap.
    exists (cid, opponent). split; [reflexivity|].
    now apply elem_of_map_to_list.
  - rewrite (roster_ids s Hkeys). apply NoDup_fst_map_to_list.
  - apply Hids.
  - apply Hids.
  - now rewrite Hids.
  - intros connection. rewrite join_spec. unfold inbox, deliveredTo. cbn.
    destruct (decide (connection = socket)) as [->|Hother].
    + rewrite !bool_decide_eq_true_2 by auto.
      now rewrite bool_decide_eq_false_2 by auto.
    + rewrite !(bool_decide_eq_false_2 (connection = socket)) by auto.
      now rewrite bool_decide_eq_true_2 by auto.
Qed.

(** *** Scores *)

Lemma step_keeps_value fuel e s s' out :
  handle fuel e s = Done tt s' out →
  Collectible.value (collectible s') = Collectible.value (collectible s).
Proof.
  intros He. apply handle_done in He. destruct e; cbn in He.
  - now destruct He as (_ & -> & _).
  - now destruct He as (_ & -> & _).
  - now destruct He as (_ & (p & _ & ->) & _).
  - now destruct He as (_ & _ & -> & _).
Qed.

(** Integers up to 2^53 are doubles. *)
Lemma nearestDouble_safe n :
  Z.abs n ≤ 2 ^ 53 → Score.nearestDouble n = Score.Int n.
Proof.
  intros Hsafe. unfold Score.nearestDouble. cbv zeta.
  destruct (Z.leb_spec (Z.abs n) (2 ^ 53)); [reflexivity|lia].
Qed.

(** A double above 2^53 is a multiple of the weight of its last bit. *)
Lemma representable_multiple b :
  2 ^ 53 < b → Score.representable b →
  ∃ m, b = m * 2 ^ (Z.log2 b - 52).
Proof.
  intros Hbig Hrep. unfold Score.representable, Score.nearestDouble in Hrep.
  cbv zeta in Hrep. rewrite (Z.abs_eq b) in Hrep by lia.
  destruct (Z.leb_spec b (2 ^ 53)); [lia|].
  destruct (2 ^ 1024 <=? _); [discriminate|].
  injection Hrep as Hrep. rewrite Z.sgn_pos in Hrep by lia.
  eexists. rewrite Z.mul_1_l in Hrep. symmetry. exact Hrep.
Qed.

(** Rounding does not go below a double that the exact number is not
    below. *)
Lemma nearestDouble_above b n r :
  0 ≤ b → b ≤ n → Score.representable b →
  Score.nearestDouble n = Score.Int r → b ≤ r.
Proof.
  intros Hb Hle Hrep. unfold Score.nearestDouble. cbv zeta.
  rewrite (Z.abs_eq n) by lia.
  destruct (Z.leb_spec n (2 ^ 53)) as [Hsafe|Hbig]; [intros [= <-]; lia|].
  set (e := Z.log2 n - 52). set (ulp := 2 ^ e).
  assert (53 ≤ Z.log2 n) as Hlog by (apply Z.log2_le_pow2; lia).
  assert (0 < ulp) as Hulp by (apply Z.pow_pos_nonneg; lia).
  assert (2 ^ 52 * ulp ≤ n < 2 ^ 53 * ulp) as Hn.
  { unfold ulp, e. rewrite <- !Z.pow_add_r by lia.
    replace (52 + (Z.log2 n - 52)) with (Z.log2 n) by lia.
    replace (53 + (Z.log2 n - 52)) with (Z.succ (Z.log2 n)) by lia.
    apply Z.log2_spec. lia. }
  pose proof (Z.div_mod n ulp ltac:(lia)) as Hdm.
  pose proof (Z.mod_pos_bound n ulp Hulp) as Hr.
  set (q := n / ulp) in *. set (r0 := n mod ulp) in *.
  destruct (2 ^ 1024 <=? _); [discriminate|].
  rewrite Z.sgn_pos, Z.mul_1_l by lia. intros [= <-].
  assert (q * ulp ≤ (if (ulp <? 2 * r0) || (ulp =? 2 * r0) && Z.odd q
                     then q + 1 else q) * ulp) as Hm
      by (destruct (_ || _); nia).
  destruct (Z_le_gt_dec b (q * ulp)) as [|Hbetween]; [lia|].
  exfalso.
  assert (2 ^ 52 ≤ q) as Hq by nia.
  assert (2 ^ 53 < b) as Hbbig.
  { assert (2 ≤ ulp); [|nia].
    unfold ulp. change 2 with (2 ^ 1) at 1. apply Z.pow_le_mono_r; lia. }
  destruct (representable_multiple b Hbbig Hrep) as (m & Hm').
  assert (Z.log2 b = Z.log2 n) as Hlogb.
  { apply Z.log2_unique; [lia|].
    pose proof (Z.log2_spec n ltac:(lia)) as Hs.
    split; [|lia].
    replace (2 ^ Z.log2 n) with (2 ^ 52 * ulp); [nia|].
    unfold ulp, e. rewrite <- Z.pow_add_r by lia. f_equal. lia. }
  rewrite Hlogb in Hm'. fold e in Hm'. fold ulp in Hm'.
  assert (q < m) as Hqm by nia.
  assert ((q + 1) * ulp ≤ m * ulp) as Hnext
      by (apply Z.mul_le_mono_nonneg_r; lia).
  lia.
Qed.

Lemma le_natural x y :
  Score.isNatural x → Score.le x y → Score.isNatural y.
Proof.
  intros (a & -> & Ha). destruct y as [b|text]; cbn; [|contradiction].
  intros Hle. exists b. split; [reflexivity|lia].
Qed.

Lemma le_refl_natural x : Score.isNatural x → Score.le x x.
Proof. intros (a & -> & Ha). cbn. lia. Qed.

(** An honest step keeps or raises the score of every record that stays,
    when the stored scores are natural numbers and the collectible is worth
    at least nothing. *)
Lemma honest_step_monotone fuel e s s' out cid stored stored' :
  0 ≤ Collectible.value (collectible s) →
  scoresNonNegative s →
  honest s e →
  handle fuel e s = Done tt s' out →
  players s !! cid = Some stored →
  players s' !! cid = Some stored' →
  Score.le (Player.score stored) (Player.score stored').
Proof.
  intros Hvalue Hscores Hhonest He Hbefore Hafter.
  pose proof (le_refl_natural _ (Hscores _ _ Hbefore)) as Hsame.
  apply handle_done in He.
  destruct e as [socket player|socket player|socket player|socket];
    cbn in He, Hhonest.
  - destruct He as (Hplayers & _), Hhonest as (_ & Hnew).
    rewrite Hplayers, lookup_insert in Hafter. case_decide.
    + injection Hafter as <-. apply Hnew. congruence.
    + now replace stored' with stored by congruence.
  - destruct He as (Hplayers & _). rewrite Hplayers in Hafter.
    destruct (players s !! Player.id player) as [held|] eqn:Hreg.
    + rewrite lookup_insert in Hafter. case_decide.
      * injection Hafter as <-. cbn.
        replace stored with held by congruence. now apply Hhonest.
      * now replace stored' with stored by congruence.
    + now replace stored' with stored by congruence.
  - destruct He as (Hplayers & _). rewrite Hplayers in Hafter.
    destruct (players s !! Player.id player) as [held|] eqn:Hreg.
    + rewrite lookup_insert in Hafter. case_decide.
      * injection Hafter as <-. cbn.
        replace stored with held in * by congruence.
        destruct (Hhonest held eq_refl)
          as (Hle & b & Hb & Hdouble & r & Hfits).
        destruct (Hscores _ _ Hreg) as (a & Ha & Hnat).
        rewrite Hb, Ha in *. cbn in Hle |- *. rewrite Hfits.
        assert (b ≤ r) by (eapply nearestDouble_above; eauto; lia). lia.
      * now replace stored' with stored by congruence.
    + now replace stored' with stored by congruence.
  - destruct He as (_ & Hplayers & _).
    rewrite Hplayers, lookup_delete in Hafter. case_decide; [discriminate|].
    now replace stored' with stored by congruence.
Qed.

(** An honest step keeps every stored score a natural number. *)
Lemma honest_step_nonnegative fuel e s s' out :
  0 ≤ Collectible.value (collectible s) →
  scoresNonNegative s →
  honest s e →
  handle fuel e s = Done tt s' out →
  scoresNonNegative s'.
Proof.
  intros Hvalue Hscores Hhonest He cid stored' Hafter.
  destruct (players s !! cid) as [stored|] eqn:Hbefore.
  - pose proof (honest_step_monotone _ _ _ _ _ _ _ _
                  Hvalue Hscores Hhonest He Hbefore Hafter) as Hle.
    exact (le_natural _ _ (Hscores _ _ Hbefore) Hle).
  - apply handle_done in He.
    destruct e as [socket player|socket player|socket player|socket];
      cbn in He, Hhonest.
    + destruct He as (Hplayers & _), Hhonest as (Hscore & _).
      rewrite Hplayers, lookup_insert in Hafter. case_decide; [|congruence].
      now injection Hafter as <-.
    + destruct He as (Hplayers & _). rewrite Hplayers in Hafter.
      destruct (players s !! Player.id player) as [held|] eqn:Hreg;
        [|congruence].
      rewrite lookup_insert in Hafter. case_decide; congruence.
    + destruct He as (Hplayers & _). rewrite Hplayers in Hafter.
      destruct (players s !! Player.id player) as [held|] eqn:Hreg;
        [|congruence].
      rewrite lookup_insert in Hafter. case_decide; congruence.
    + destruct He as (_ & Hplayers & _).
      rewrite Hplayers, lookup_delete in Hafter. case_decide; congruence.
Qed.

(** C7, amended. With honest clients (a draft joins with a score that is a
    natural number; every payload reports an integer score, a double, that
    is not below the stored one; a collision does not take the score past
    the range of a double) and a collectible that is worth at least nothing,
    every stored score is a natural number in every state, and from one
    state to the next the score of a record that stays does not go down. *)
Theorem C7_honest_scores_grow s :
  0 ≤ defaultValue →
  honestly_reachable s →
  scoresNonNegative s ∧
  ∀ fuel e s' out cid stored stored',
    honest s e →
    handle fuel e s = Done tt s' out →
    players s !! cid = Some stored →
    players s' !! cid = Some stored' →
    Score.le (Player.score stored) (Player.score stored').
Proof.
  intros Hvalue Hreach.
  assert (scoresNonNegative s ∧
          Collectible.value (collectible s) = defaultValue) as [Hscores Hv].
  { induction Hreach as [|s fuel e s' out _ [IHs IHv] Hhonest He].
    - split; [|reflexivity]. intros cid stored. cbn.
      now rewrite lookup_empty.
    - split.
      + eapply honest_step_nonnegative; eauto. lia.
      + now rewrite (step_keeps_value _ _ _ _ _ He). }
  split; [exact Hscores|].
  intros fuel e s' out cid stored stored' Hhonest He.
  eapply honest_step_monotone; eauto. lia.
Qed.

(** ** Further properties of the handlers *)

(** *** Frames *)

(** What [socket.broadcast.emit] alone delivers. *)
Lemma inbox_broadcast socket m connection :
  inbox connection [Emit (ToOthers socket) m] =
    if bool_decide (connection = socket) then [] else [m].
Proof.
  unfold inbox, deliveredTo. cbn.
  destruct (decide (connection = socket)) as [->|Hother].
  - rewrite (bool_decide_eq_true_2 (socket = socket)) by reflexivity.
    now rewrite (bool_decide_eq_false_2 (socket ≠ socket)) by auto.
  - rewrite (bool_decide_eq_false_2 (connection = socket)) by assumption.
    now rewrite (bool_decide_eq_true_2 (connection ≠ socket)) by assumption.
Qed.

(** A handler other than the collision handler leaves the collectible and
    the counters of the random sources as they are. *)
Lemma quiet_step fuel e s s' :
  collisions [e] = 0%nat →
  final (handle fuel e s) = Some s' →
  collectible s' = collectible s ∧ posCalls s' = posCalls s ∧
  idCalls s' = idCalls s.
Proof.
  destruct e as [socket player|socket player|socket player|socket]; cbn;
    [| |discriminate|]; intros _.
  - rewrite join_spec. now intros [= <-].
  - destruct (players s !! Player.id player) as [stored|] eqn:Hreg.
    + rewrite (stateChange_found _ _ _ _ Hreg). now intros [= <-].
    + rewrite (stateChange_absent _ _ _ Hreg).
      destruct notFound; now intros [= <-].
  - destruct (players s !! socket) as [stored|] eqn:Hreg.
    + rewrite (disconnect_found _ _ _ Hreg). now intros [= <-].
    + rewrite (disconnect_absent _ _ Hreg). now intros [= <-].
Qed.

(** X4. Only collisions touch the collectible: a run without a collision
    event ends, whether a handler threw or not, with the collectible it
    started with, and has called neither [generateStartPos] nor [nanoid]. *)
Theorem X4_only_collisions_touch_collectible fuel events : ∀ s s',
  collisions events = 0%nat →
  final (run fuel events s) = Some s' →
  collectible s' = collectible s ∧ posCalls s' = posCalls s ∧
  idCalls s' = idCalls s.
Proof.
  induction events as [|e rest IH]; intros s s' Hnone.
  - cbn. now intros [= <-].
  - assert (collisions [e] = 0%nat ∧ collisions rest = 0%nat) as [He Hrest]
        by (destruct e; cbn in *; auto; discriminate).
    rewrite run_cons.
    destruct (handle fuel e s) as [[] s1 out1|err s1 out1|] eqn:Hstep; cbn.
    + destruct (quiet_step fuel e s s1 He) as (Hc & Hp & Hi);
        [now rewrite Hstep|].
      specialize (IH s1 s' Hrest). rewrite <- Hc, <- Hp, <- Hi.
      destruct (run fuel rest s1) as [[] s2 out2|err s2 out2|];
        cbn in *; auto.
    + intros [= <-]. apply (quiet_step fuel e s s1 He). now rewrite Hstep.
    + discriminate.
Qed.

(** X1. The [playerStateChange] handler has no loop and leaves the
    collectible and the random sources alone. When it returns, the sender
    receives nothing and every other connection receives exactly one
    [opponentStateChange]; when it throws, nothing was emitted and the state
    is as before. *)
Theorem X1_stateChange_scope_and_frame socket player s :
  match onPlayerStateChange socket player s with
  | Done _ s' out =>
      collectible s' = collectible s ∧ posCalls s' = posCalls s ∧
      idCalls s' = idCalls s ∧
      ∃ updated, ∀ connection,
        inbox connection out =
          if bool_decide (connection = socket)
          then []
          else [Msg.opponentStateChange updated]
  | Uncaught _ s' out => s' = s ∧ out = []
  | OutOfFuel => False
  end.
Proof.
  pose proof (inbox_broadcast socket) as Hinbox.
  destruct (players s !! Player.id player) as [stored|] eqn:Hreg.
  - rewrite (stateChange_found _ _ _ _ Hreg). cbn.
    repeat split. eexists. intros connection. apply Hinbox.
  - rewrite (stateChange_absent _ _ _ Hreg).
    destruct notFound; cbn; [now split|].
    repeat split. eexists. intros connection. apply Hinbox.
Qed.

(** X2. A [disconnect] of a connection that has a record, in a state where
    every record is stored under its own id: the handler returns, the record
    is gone, every other record and the collectible are as before, the
    leaving connection receives nothing and every other connection receives
    exactly one [opponentLeave] with the id of the connection. *)
Theorem X2_disconnect_removes_and_announces socket s stored :
  keyedById s →
  players s !! socket = Some stored →
  ∃ s' out,
    onDisconnect socket s = Done tt s' out ∧
    players s' !! socket = None ∧
    (∀ cid, cid ≠ socket → players s' !! cid = players s !! cid) ∧
    collectible s' = collectible s ∧
    ∀ connection,
      inbox connection out =
        if bool_decide (connection = socket)
        then []
        else [Msg.opponentLeave socket].
Proof.
  intros Hkeys Hreg. rewrite (disconnect_found _ _ _ Hreg).
  rewrite (Hkeys _ _ Hreg). do 2 eexists. split; [reflexivity|]. cbn.
  split; [apply lookup_delete_eq|].
  split; [intros cid Hne; now apply lookup_delete_ne|].
  split; [reflexivity|].
  intros connection. apply inbox_broadcast.
Qed.

(** X3. Joining and leaving undo each other: a [joinGame] of a player whose
    id is the connection's and has no record yet, followed by the
    [disconnect] of that connection, returns and leaves the server in the
    state it was in. The other connections have seen [newOpponent] and then
    [opponentLeave]. *)
Theorem X3_join_then_disconnect_restores fuel socket player s :
  Player.id player = socket →
  players s !! socket = None →
  run fuel [joinGame socket player; disconnect socket] s =
    Done tt s
      [Emit (ToSender socket)
            (Msg.currentOpponents (Registry.all (players s)));
       Emit (ToSender socket) (Msg.collectible (collectible s));
       Emit (ToOthers socket) (Msg.newOpponent player);
       Emit (ToOthers socket) (Msg.opponentLeave socket)].
Proof.
  intros Hid Hnew. rewrite run_cons. cbn [handle]. rewrite join_spec.
  rewrite run_cons. cbn [handle].
  erewrite disconnect_found
    by (cbn; rewrite Hid; apply lookup_insert_eq).
  cbn. rewrite Hid, delete_insert_eq, (delete_id _ _ Hnew).
  now destruct s.
Qed.

(** *** The draws of the loop *)

(** The loop, entered with the draw number [base], returns the first draw
    from [base] on that is not the collectible's position, and has made one
    call of [generateStartPos] for every draw it rejected. *)
Lemma resample_first fuel : ∀ base s q s' out,
  posCalls s = S base →
  resample fuel (generateStartPos base) s = Done q s' out →
  ∃ k, (k ≤ fuel)%nat ∧
       q = generateStartPos (base + k) ∧
       samePos (generateStartPos (base + k)) (collectible s) = false ∧
       posCalls s' = (posCalls s + k)%nat ∧
       ∀ j, (j < k)%nat →
            samePos (generateStartPos (base + j)) (collectible s) = true.
Proof.
  induction fuel as [|fuel IH]; intros base s q s' out Hbase; cbn;
    unfold_monad; cbn;
    destruct (samePos (generateStartPos base) (collectible s)) eqn:Hsame;
    cbn; try discriminate.
  - intros [= <- <- _]. exists 0%nat. rewrite !Nat.add_0_r.
    repeat split; auto; lia.
  - rewrite Hbase.
    destruct (resample fuel _ _) as [q' t out'| |] eqn:Hloop;
      [|discriminate..].
    intros [= <- <- _].
    apply (IH (S base)) in Hloop
      as (k & Hk & Hq & Haccepted & Hcalls & Hrejected); [|reflexivity].
    cbn in Haccepted, Hcalls, Hrejected. exists (S k). repeat split.
    + lia.
    + rewrite Hq. f_equal. lia.
    + rewrite <- Haccepted. do 2 f_equal. lia.
    + rewrite Hcalls. lia.
    + intros [|j] Hj.
      * now rewrite Nat.add_0_r.
      * rewrite <- (Hrejected j) by lia. do 2 f_equal. lia.
  - intros [= <- <- _]. exists 0%nat. rewrite !Nat.add_0_r.
    repeat split; auto; lia.
Qed.

(** X5. The position a collision gives the collectible is the first draw,
    counted from the call of line 91, that is not the position it had: that
    draw differs from the position, the draws before it were all that
    position, and the handler has called [generateStartPos] once for each of
    them and once more, never after it found the position. *)
Theorem X5_collision_takes_first_differing_draw
    fuel socket player s s' out :
  onPlayerCollideWithCollectible fuel socket player s = Done tt s' out →
  ∃ k, (k ≤ fuel)%nat ∧
       position (collectible s') = generateStartPos (posCalls s + k) ∧
       samePos (generateStartPos (posCalls s + k)) (collectible s) = false ∧
       posCalls s' = (posCalls s + S k)%nat ∧
       ∀ j, (j < k)%nat →
            samePos (generateStartPos (posCalls s + j)) (collectible s) = true.
Proof.
  unfold onPlayerCollideWithCollectible. unfold_monad. cbn.
  assert (∀ updated t,
            setPlayerState
              (Player.with_score player
                 (plusAssign (Player.score player)
                    (Collectible.value (collectible s)))) s
              = Done updated t [] →
            collectible t = collectible s ∧ posCalls t = posCalls s)
    as Hframe.
  { intros updated t.
    destruct (players s !! Player.id player) as [stored|] eqn:Hreg.
    - erewrite setPlayerState_found by exact Hreg. now intros [= _ <-].
    - rewrite setPlayerState_absent by exact Hreg. unfold onNotFound.
      destruct notFound; unfold_monad; [discriminate|]. now intros [= _ <-]. }
  destruct (setPlayerState _ s) as [updated t out0| |] eqn:Hset;
    [|discriminate..].
  assert (out0 = []) as ->.
  { destruct (players s !! Player.id player) as [stored|] eqn:Hreg.
    - erewrite setPlayerState_found in Hset by exact Hreg.
      now injection Hset as _ _ <-.
    - rewrite setPlayerState_absent in Hset by exact Hreg.
      unfold onNotFound in Hset.
      destruct notFound; unfold_monad; [discriminate|].
      now injection Hset as _ _ <-. }
  destruct (Hframe _ _ eq_refl) as [Hc Hp]. cbn.
  destruct (resample fuel _ _) as [q t' out'| |] eqn:Hloop;
    [|discriminate..].
  apply (resample_first fuel (posCalls t)) in Hloop
    as (k & Hk & Hq & Haccepted & Hcalls & Hrejected); [|reflexivity].
  cbn in Haccepted, Hcalls, Hrejected. intros [= <- _]. cbn.
  exists k. rewrite <- Hp, <- Hc. repeat split; auto.
  - unfold position. cbn. rewrite Hq. now destruct (generateStartPos _).
  - rewrite Hcalls. lia.
Qed.

(** *** Tokens and views *)

Lemma broadcastTokens_app out1 out2 :
  broadcastTokens (out1 ++ out2) = broadcastTokens out1 ++ broadcastTokens out2.
Proof.
  induction out1 as [|[[]  []] rest IH]; cbn; auto. now rewrite IH.
Qed.

Lemma collectiblesSent_app out1 out2 :
  collectiblesSent (out1 ++ out2) =
    collectiblesSent out1 ++ collectiblesSent out2.
Proof.
  induction out1 as [|[target []] rest IH]; cbn; auto. now rewrite IH.
Qed.

(** What one handler that returned has broadcast and told about the
    collectible. *)
Lemma step_tokens fuel e s s' out :
  handle fuel e s = Done tt s' out →
  broadcastTokens out = nanoid <$> seq (idCalls s) (collisions [e]) ∧
  idCalls s' = (idCalls s + collisions [e])%nat.
Proof.
  destruct e as [socket player|socket player|socket player|socket]; cbn.
  - rewrite join_spec. intros [= <- <-]. cbn. split; [reflexivity|lia].
  - destruct (players s !! Player.id player) as [stored|] eqn:Hreg.
    + rewrite (stateChange_found _ _ _ _ Hreg). intros [= <- <-]. cbn.
      split; [reflexivity|lia].
    + rewrite (stateChange_absent _ _ _ Hreg).
      destruct notFound; [discriminate|]. intros [= <- <-]. cbn.
      split; [reflexivity|lia].
  - intros Hrun. pose proof (collide_spec fuel socket player s) as Hspec.
    cbn zeta in Hspec. rewrite Hrun in Hspec.
    destruct Hspec as (p & updated & _ & Hc & Hi & _ & ->).
    cbn. rewrite Hc, Hi. cbn. split; [reflexivity|lia].
  - destruct (players s !! socket) as [stored|] eqn:Hreg.
    + rewrite (disconnect_found _ _ _ Hreg). intros [= <- <-]. cbn.
      split; [reflexivity|lia].
    + rewrite (disconnect_absent _ _ Hreg). discriminate.
Qed.

(** X6. The tokens of the collectibles a run broadcasts are the tokens
    [nanoid] returned, one per collision and in the order of the calls; so
    with a [nanoid] that never returns a token twice no two broadcasts of a
    run carry the same token. *)
Theorem X6_broadcast_tokens_are_the_drawn_ones fuel events : ∀ s s' out,
  run fuel events s = Done tt s' out →
  broadcastTokens out = nanoid <$> seq (idCalls s) (collisions events) ∧
  ((∀ i j, nanoid i = nanoid j → i = j) → NoDup (broadcastTokens out)).
Proof.
  assert (∀ s s' out, run fuel events s = Done tt s' out →
            broadcastTokens out =
              nanoid <$> seq (idCalls s) (collisions events)) as Htokens.
  { induction events as [|e rest IH]; intros s s' out Hrun.
    - cbn in Hrun. now injection Hrun as _ <-.
    - apply run_cons_done in Hrun as (s1 & out1 & out2 & He & Hrest & ->).
      apply step_tokens in He as [Hout1 Hids].
      rewrite broadcastTokens_app, Hout1, (IH _ _ _ Hrest), Hids.
      rewrite <- fmap_app, <- seq_app. f_equal. f_equal.
      destruct e; reflexivity. }
  intros s s' out Hrun. split; [now apply (Htokens s s')|].
  intros Hinj. rewrite (Htokens _ _ _ Hrun).
  apply NoDup_fmap_2_strong; [|apply NoDup_seq]. intros i j _ _. apply Hinj.
Qed.

(** What a handler said about the collectible last is the collectible. *)
Lemma step_view fuel e s s' :
  final (handle fuel e s) = Some s' →
  default (collectible s) (last (collectiblesSent (sent (handle fuel e s)))) =
    collectible s'.
Proof.
  destruct e as [socket player|socket player|socket player|socket]; cbn.
  - rewrite join_spec. now intros [= <-].
  - destruct (players s !! Player.id player) as [stored|] eqn:Hreg.
    + rewrite (stateChange_found _ _ _ _ Hreg). now intros [= <-].
    + rewrite (stateChange_absent _ _ _ Hreg).
      destruct notFound; now intros [= <-].
  - pose proof (collide_spec fuel socket player s) as Hspec.
    cbn zeta in Hspec.
    destruct (onPlayerCollideWithCollectible fuel socket player s)
      as [[] t out|err t out|]; cbn; [| |discriminate]; intros [= <-].
    + now destruct Hspec as (p & updated & _ & _ & _ & _ & ->).
    + now destruct Hspec as (_ & _ & _ & -> & ->).
  - destruct (players s !! socket) as [stored|] eqn:Hreg.
    + rewrite (disconnect_found _ _ _ Hreg). now intros [= <-].
    + rewrite (disconnect_absent _ _ Hreg). now intros [= <-].
Qed.

(** X7. The clients' view of the collectible is the server's: in the state a
    run ends in, whether a handler threw or not, the collectible is the one
    the last [collectible] message of the run carried, to a joining
    connection or to all; when the run sent none, it is the collectible the
    run started with. *)
Theorem X7_last_collectible_message_is_current fuel events : ∀ s s',
  final (run fuel events s) = Some s' →
  default (collectible s) (last (collectiblesSent (sent (run fuel events s))))
    = collectible s'.
Proof.
  induction events as [|e rest IH]; intros s s'.
  - cbn. now intros [= <-].
  - rewrite run_cons. pose proof (step_view fuel e s) as Hstep.
    destruct (handle fuel e s) as [[] s1 out1|err s1 out1|]; cbn in *.
    + specialize (Hstep s1 eq_refl). specialize (IH s1 s').
      destruct (run fuel rest s1) as [[] s2 out2|err s2 out2|];
        cbn in *; [| |discriminate]; intros Hfinal;
        specialize (IH Hfinal); rewrite collectiblesSent_app, last_app;
        destruct (last (collectiblesSent out2)); cbn in *; congruence.
    + intros [= <-]. now apply Hstep.
    + discriminate.
Qed.

(** *** The sprite index, in and out of range *)

(** X8. A sprite index that is a valid index of the sprite list stays one:
    in the state any run ends in, whether a handler threw or not, it is
    still at least 0 and below the sprite count. *)
Theorem X8_sprite_index_stays_in_range fuel events s s' :
  0 ≤ Collectible.spriteSrcIndex (collectible s) < spriteCount →
  final (run fuel events s) = Some s' →
  0 ≤ Collectible.spriteSrcIndex (collectible s') < spriteCount.
Proof.
  intros Hrange.
  apply (run_preserves
           (λ t, 0 ≤ Collectible.spriteSrcIndex (collectible t) < spriteCount)
           fuel); [|exact Hrange].
  clear. intros e t t' Hrange Hfinal.
  destruct (handle fuel e t) as [[] t1 out|err t1 out|] eqn:He;
    cbn in Hfinal; [| |discriminate]; injection Hfinal as ->.
  - apply handle_done in He. destruct e; cbn in He.
    + now destruct He as (_ & -> & _).
    + now destruct He as (_ & -> & _).
    + destruct He as (_ & (p & _ & ->) & _). cbn.
      rewrite nextSpriteSrcIndex_mod by exact Hrange.
      apply Z.mod_pos_bound. lia.
    + now destruct He as (_ & _ & -> & _).
  - apply handle_uncaught in He. now subst.
Qed.

(** X9. The wrap of lines 103-106 tests for the last index only: a sprite
    index that is at or past the sprite count, as index 0 is for an empty
    sprite list, is never brought back; it grows by one with every
    collision. *)
Theorem X9_sprite_index_past_the_end_grows fuel events : ∀ s s' out,
  spriteCount ≤ Collectible.spriteSrcIndex (collectible s) →
  run fuel events s = Done tt s' out →
  Collectible.spriteSrcIndex (collectible s') =
    Collectible.spriteSrcIndex (collectible s) + Z.of_nat (collisions events).
Proof.
  induction events as [|e rest IH]; intros s s' out Hpast Hrun.
  - cbn in Hrun. injection Hrun as <- _. cbn. lia.
  - apply run_cons_done in Hrun as (s1 & out1 & out2 & He & Hrest & _).
    apply handle_done in He.
    assert (Collectible.spriteSrcIndex (collectible s1) =
              Collectible.spriteSrcIndex (collectible s) +
              Z.of_nat (collisions [e])) as Hstep.
    { destruct e; cbn in He |- *.
      - destruct He as (_ & -> & _). lia.
      - destruct He as (_ & -> & _). lia.
      - destruct He as (_ & (p & _ & ->) & _). cbn.
        unfold nextSpriteSrcIndex.
        destruct (Z.eqb_spec (Collectible.spriteSrcIndex (collectible s))
                    (spriteCount - 1)); lia.
      - destruct He as (_ & _ & -> & _). lia. }
    rewrite (IH s1 s' out2) by (exact Hrest || lia).
    rewrite Hstep. destruct e; cbn; lia.
Qed.

(** *** What a collision tells and stores *)

(** X10. In a collision for a registered id the three places the new score
    goes to agree: what is sent to the sender with [scored], the score of
    the record broadcast with [opponentStateChange] and the score stored are
    all the result of the addition of line 82 on the score the payload
    reported and the value of the collectible. For an integer score whose
    sum with the value is at most 2^53 in magnitude that result is the exact
    sum. The record of no other player changes. *)
Theorem X10_collision_score_is_told_as_stored
    fuel socket player s stored s' out :
  players s !! Player.id player = Some stored →
  onPlayerCollideWithCollectible fuel socket player s = Done tt s' out →
  ∃ stored',
    players s' !! Player.id player = Some stored' ∧
    Player.score stored' =
      plusAssign (Player.score player)
                 (Collectible.value (collectible s)) ∧
    (∀ b, Player.score player = Score.Int b →
          Z.abs (b + Collectible.value (collectible s)) ≤ 2 ^ 53 →
          Player.score stored' =
            Score.Int (b + Collectible.value (collectible s))) ∧
    out = [Emit (ToSender socket) (Msg.scored (Player.score stored'));
           Emit (ToOthers socket) (Msg.opponentStateChange (Some stored'));
           Emit ToAll (Msg.collectible (collectible s'))] ∧
    ∀ cid, cid ≠ Player.id player → players s' !! cid = players s !! cid.
Proof.
  intros Hreg Hrun.
  pose proof (collide_spec fuel socket player s) as Hspec. cbn zeta in Hspec.
  rewrite Hrun in Hspec.
  destruct Hspec as (p & updated & _ & _ & _ & Hset & ->).
  erewrite setPlayerState_found in Hset by exact Hreg.
  injection Hset as <- Hplayers.
  eexists. rewrite <- Hplayers. split; [apply lookup_insert_eq|].
  split; [reflexivity|]. split.
  { intros b Hb Hsafe. cbn. rewrite Hb. cbn.
    now apply nearestDouble_safe. }
  split; [reflexivity|].
  intros cid Hne. now apply lookup_insert_ne.
Qed.

(** *** Scopes of all handlers *)

(** X11. No handler sends a message to the wrong side. Whatever the event
    and however its handler ends, the connection the event came from
    receives only [currentOpponents], [collectible] and [scored], never
    [newOpponent], [opponentStateChange] or [opponentLeave]; every other
    connection receives only [newOpponent], [opponentStateChange],
    [opponentLeave] and [collectible], never a roster or a score. *)
Theorem X11_handlers_keep_scopes fuel e s connection :
  forallb (if bool_decide (connection = socketOf e)
           then forSender else forOthers)
          (inbox connection (sent (handle fuel e s))) = true.
Proof.
  assert (∀ socket out,
            Forall (λ em, match msg em with
                          | Msg.currentOpponents _ | Msg.scored _ =>
                              target em = ToSender socket
                          | Msg.collectible _ =>
                              target em = ToSender socket ∨ target em = ToAll
                          | _ => target em = ToOthers socket
                          end) out →
            forallb (if bool_decide (connection = socket)
                     then forSender else forOthers)
                    (inbox connection out) = true) as Hscopes.
  { intros socket out Hout. unfold inbox.
    induction Hout as [|[target m] rest Hem _ IH]; [reflexivity|].
    cbn. unfold deliveredTo at 1. cbn in Hem |- *.
    destruct (decide (connection = socket)) as [->|Hother].
    - rewrite (bool_decide_eq_true_2 (socket = socket)) in IH |- *
        by reflexivity.
      destruct m; try destruct Hem as [Hem|Hem]; subst target; cbn;
        rewrite ?(bool_decide_eq_true_2 (socket = socket)) by reflexivity;
        rewrite ?(bool_decide_eq_false_2 (socket ≠ socket)) by auto;
        cbn; auto.
    - rewrite (bool_decide_eq_false_2 (connection = socket)) in IH |- *
        by assumption.
      destruct m; try destruct Hem as [Hem|Hem]; subst target; cbn;
        rewrite ?(bool_decide_eq_false_2 (connection = socket))
          by assumption;
        rewrite ?(bool_decide_eq_true_2 (connection ≠ socket))
          by assumption;
        cbn; auto. }
  apply Hscopes.
  destruct e as [socket player|socket player|socket player|socket]; cbn.
  - rewrite join_spec. cbn. repeat (constructor; [cbn; auto|]). constructor.
  - destruct (players s !! Player.id player) as [stored|] eqn:Hreg.
    + rewrite (stateChange_found _ _ _ _ Hreg). cbn.
      repeat (constructor; [cbn; auto|]). constructor.
    + rewrite (stateChange_absent _ _ _ Hreg).
      destruct notFound; cbn; repeat (constructor; [cbn; auto|]);
        constructor.
  - pose proof (collide_spec fuel socket player s) as Hspec.
    cbn zeta in Hspec.
    destruct (onPlayerCollideWithCollectible fuel socket player s)
      as [[] t out|err t out|]; cbn; [| |constructor].
    + destruct Hspec as (p & updated & _ & _ & _ & _ & ->).
      repeat (constructor; [cbn; auto|]). constructor.
    + destruct Hspec as (_ & _ & _ & _ & ->).
      repeat (constructor; [cbn; auto|]). constructor.
  - destruct (players s !! socket) as [stored|] eqn:Hreg.
    + rewrite (disconnect_found _ _ _ Hreg). cbn.
      repeat (constructor; [cbn; auto|]). constructor.
    + rewrite (disconnect_absent _ _ Hreg). cbn. constructor.
Qed.

End Coordinator.

(** ** The claims at concrete inputs *)

(** The configuration of the examples: four sprites, the draws and tokens of
    [Demo], sprite 2 and value 10 at start. *)

Lemma boot_demo :
  boot Demo.generateStartPos Demo.nanoid 2 10 = Demo.start.
Proof. reflexivity. Qed.

Lemma demo_nanoid_injective i :
  ∀ j, Demo.nanoid i = Demo.nanoid j → i = j.
Proof.
  induction i as [|i IH]; intros [|j]; cbn; try discriminate; auto.
  intros [= Heq]. f_equal. now apply IH.
Qed.

Lemma demo_withA_reachable :
  reachable Throws 4 Demo.generateStartPos Demo.nanoid Demo.plusOther 2 10
    Demo.withA.
Proof.
  exists 0%nat, [joinGame "A" Demo.A],
    (sent (run Throws 4 Demo.generateStartPos Demo.nanoid Demo.plusOther 0
             [joinGame "A" Demo.A] Demo.start)).
  vm_compute. reflexivity.
Qed.

(** C8. A [disconnect] of a connection that never joined, as the first event
    after process start: the handler does not complete. Whichever way
    [playerLeave] reports the missing record, an exception leaves the handler
    uncaught ([NotFound] thrown by the registry, or the TypeError of
    [player.id] on [undefined]) and nothing is emitted. *)
Theorem C8_disconnect_before_join_is_uncaught convention :
  onDisconnect convention "never-joined" Demo.start =
    Uncaught (match convention with
              | Throws => NotFound
              | ReturnsUndefined => TypeError
              end) Demo.start [].
Proof. apply disconnect_absent. reflexivity. Qed.

(** The scenario of the specification: the collectible at (5,5) with value
    10 and sprite 2 of 4; A, with score 0, collides. A's score becomes 10,
    the collectible that is broadcast has sprite 3, a new token and a
    position other than (5,5). *)
Lemma C1_witness :
  ∃ s' stored',
    onPlayerCollideWithCollectible Throws 4 Demo.generateStartPos
        Demo.nanoid Demo.plusOther 1 "A" Demo.A Demo.withA =
      Done tt s'
        [Emit (ToSender "A") (Msg.scored (Player.score stored'));
         Emit (ToOthers "A") (Msg.opponentStateChange (Some stored'));
         Emit ToAll (Msg.collectible (collectible s'))] ∧
    players s' !! Player.id Demo.A = Some stored' ∧
    Player.score stored' =
      Score.Int (0 + Collectible.value (collectible Demo.withA)) ∧
    Collectible.id (collectible s') ≠ Collectible.id (collectible Demo.withA).
Proof.
  apply (C1_collision_scores_reported_plus_value
           Throws 4 Demo.generateStartPos Demo.nanoid Demo.plusOther 2 10
           1 1 "A" Demo.A Demo.withA Demo.A 0).
  - intros i j. apply demo_nanoid_injective.
  - exact demo_withA_reachable.
  - vm_compute. reflexivity.
  - reflexivity.
  - reflexivity.
  - vm_compute. reflexivity.
  - vm_compute. reflexivity.
  - vm_compute. reflexivity.
  - lia.
Defined.

(** A's client reports the same collision twice, with the score 0 it had
    when it joined. The first event raises the stored score from 0 to 10;
    the second stores 0 + 10 again, so the stored score stays 10 although
    the collectible is worth 10 when the event is handled. And R, who joined
    with the score 2^53 - 1 and reports it, is stored 9007199254741000
    after a collision worth 10, 9 more than before: the sum is not a
    double, and the addition of line 82 rounds it. *)
Lemma C1_counterexample_stale_score :
  ∃ s1 s2 s3 out1 out2 out3,
    onPlayerCollideWithCollectible Throws 4 Demo.generateStartPos
        Demo.nanoid Demo.plusOther 1 "A" Demo.A Demo.withA =
      Done tt s1 out1 ∧
    onPlayerCollideWithCollectible Throws 4 Demo.generateStartPos
        Demo.nanoid Demo.plusOther 1 "A" Demo.A s1 = Done tt s2 out2 ∧
    Player.score <$> players s1 !! "A" = Some (Score.Int 10) ∧
    Collectible.value (collectible s1) = 10 ∧
    Player.score <$> players s2 !! "A" = Some (Score.Int 10) ∧
    final (run Throws 4 Demo.generateStartPos Demo.nanoid Demo.plusOther 0
             [joinGame "R" Demo.R]
             (boot Demo.generateStartPos Demo.nanoid 2 10)) =
      Some Demo.withR ∧
    Player.score <$> players Demo.withR !! "R" =
      Some (Score.Int 9007199254740991) ∧
    onPlayerCollideWithCollectible Throws 4 Demo.generateStartPos
        Demo.nanoid Demo.plusOther 1 "R" Demo.R Demo.withR =
      Done tt s3 out3 ∧
    Player.score <$> players s3 !! "R" =
      Some (Score.Int 9007199254741000).
Proof.
  pose (r1 := onPlayerCollideWithCollectible Throws 4 Demo.generateStartPos
                Demo.nanoid Demo.plusOther 1 "A" Demo.A Demo.withA).
  pose (s1 := default Demo.start (final r1)).
  pose (r2 := onPlayerCollideWithCollectible Throws 4 Demo.generateStartPos
                Demo.nanoid Demo.plusOther 1 "A" Demo.A s1).
  pose (r3 := onPlayerCollideWithCollectible Throws 4 Demo.generateStartPos
                Demo.nanoid Demo.plusOther 1 "R" Demo.R Demo.withR).
  exists s1, (default Demo.start (final r2)), (default Demo.start (final r3)),
    (sent r1), (sent r2), (sent r3).
  repeat split; vm_compute; reflexivity.
Qed.

(** B has no record at process start and reports a collision. *)
Lemma C2_witness :
  final (onPlayerStateChange ReturnsUndefined "B" Demo.B Demo.start) =
    Some Demo.start ∧
  ∃ s' rest,
    final (onPlayerCollideWithCollectible ReturnsUndefined 4
             Demo.generateStartPos Demo.nanoid Demo.plusOther 1 "B" Demo.B
             Demo.start) = Some s' ∧
    players s' = players Demo.start ∧
    sent (onPlayerCollideWithCollectible ReturnsUndefined 4
            Demo.generateStartPos Demo.nanoid Demo.plusOther 1 "B" Demo.B
            Demo.start) =
      Emit (ToSender "B")
           (Msg.scored
              (plusAssign Demo.plusOther (Player.score Demo.B)
                 (Collectible.value (collectible Demo.start)))) :: rest.
Proof.
  apply (C2_unknown_id_keeps_registry
           ReturnsUndefined 4 Demo.generateStartPos Demo.nanoid
           Demo.plusOther 1 1 "B" Demo.B Demo.start).
  - reflexivity.
  - vm_compute. reflexivity.
  - lia.
Defined.

(** B has no record, and its events are not dropped in silence: under both
    conventions the collision handler sends [scored] to B; when the registry
    returns [undefined], the collectible is respawned and broadcast as well,
    and a [playerStateChange] is broadcast to the others. *)
Lemma C2_counterexample_unknown_id_emits :
  players Demo.start !! Player.id Demo.B = None ∧
  sent (onPlayerCollideWithCollectible Throws 4 Demo.generateStartPos
          Demo.nanoid Demo.plusOther 1 "B" Demo.B Demo.start) =
    [Emit (ToSender "B") (Msg.scored (Score.Int 10))] ∧
  sent (onPlayerCollideWithCollectible ReturnsUndefined 4
          Demo.generateStartPos Demo.nanoid
              Demo.plusOther 1 "B" Demo.B Demo.start) =
    [Emit (ToSender "B") (Msg.scored (Score.Int 10));
     Emit (ToOthers "B") (Msg.opponentStateChange None);
     Emit ToAll (Msg.collectible
                   {| Collectible.x := 2; Collectible.y := 7;
                      Collectible.id := "a";
                      Collectible.spriteSrcIndex := 3;
                      Collectible.value := 10 |})] ∧
  sent (onPlayerStateChange ReturnsUndefined "B" Demo.B Demo.start) =
    [Emit (ToOthers "B") (Msg.opponentStateChange None)].
Proof. repeat split; vm_compute; reflexivity. Qed.

(** B joins after A: B receives the roster with A and the collectible, A
    receives [newOpponent] with B's record. *)
Lemma C3_witness :
  ∃ roster,
    (∀ opponent, opponent ∈ roster ↔
       ∃ cid, cid ∈ joinedIds [joinGame "A" Demo.A] ∅ ∧
              players Demo.withA !! cid = Some opponent) ∧
    NoDup (Player.id <$> roster) ∧
    (∀ cid, cid ∈ (Player.id <$> roster) ↔
            cid ∈ joinedIds [joinGame "A" Demo.A] ∅) ∧
    (Player.id Demo.B ∉ (Player.id <$> roster)) ∧
    ∀ connection,
      inbox connection (sent (onJoinGame "B" Demo.B Demo.withA)) =
        if bool_decide (connection = "B")
        then [Msg.currentOpponents roster;
              Msg.collectible (collectible Demo.withA)]
        else [Msg.newOpponent Demo.B].
Proof.
  apply (C3_join_roster_and_scopes
           Throws 4 Demo.generateStartPos Demo.nanoid Demo.plusOther 2 10
           0%nat [joinGame "A" Demo.A] Demo.withA
           (sent (run Throws 4 Demo.generateStartPos Demo.nanoid
               Demo.plusOther 0
                    [joinGame "A" Demo.A] Demo.start))
           "B" Demo.B).
  - vm_compute. reflexivity.
  - cbn. rewrite elem_of_union, elem_of_singleton, elem_of_empty.
    intros [Heq|[]]. discriminate Heq.
Defined.

(** A sends [joinGame] a second time: the roster A receives holds A. *)
Lemma C3_counterexample_second_join :
  run Throws 4 Demo.generateStartPos Demo.nanoid
      Demo.plusOther 0 [joinGame "A" Demo.A]
      (boot Demo.generateStartPos Demo.nanoid 2 10) =
    Done tt Demo.withA
      [Emit (ToSender "A") (Msg.currentOpponents []);
       Emit (ToSender "A") (Msg.collectible (collectible Demo.start));
       Emit (ToOthers "A") (Msg.newOpponent Demo.A)] ∧
  inbox "A" (sent (onJoinGame "A" Demo.A Demo.withA)) =
    [Msg.currentOpponents [Demo.A];
     Msg.collectible (collectible Demo.withA)].
Proof. split; vm_compute; reflexivity. Qed.

(** The collision of A moves the collectible from (5,5) to (2,7): the first
    draw is (5,5) again and is rejected. *)
Lemma C4_witness :
  ∃ s' out,
    onPlayerCollideWithCollectible Throws 4 Demo.generateStartPos
        Demo.nanoid Demo.plusOther
        1 "A" Demo.A Demo.withA = Done tt s' out ∧
    position (collectible s') = {| Pos.x := 2; Pos.y := 7 |} ∧
    position (collectible s') ≠ position (collectible Demo.withA) ∧
    (Collectible.x (collectible s') ≠ Collectible.x (collectible Demo.withA) ∨
     Collectible.y (collectible s') ≠ Collectible.y (collectible Demo.withA)).
Proof.
  pose (r := onPlayerCollideWithCollectible Throws 4 Demo.generateStartPos
               Demo.nanoid Demo.plusOther 1 "A" Demo.A Demo.withA).
  assert (r = Done tt (default Demo.start (final r)) (sent r)) as Hrun
      by (vm_compute; reflexivity).
  exists (default Demo.start (final r)), (sent r).
  split; [exact Hrun|]. split; [vm_compute; reflexivity|].
  exact (C4_respawn_moves_collectible
           Throws 4 Demo.generateStartPos Demo.nanoid
               Demo.plusOther 1 "A" Demo.A
           Demo.withA _ _ Hrun).
Defined.

(** A field of two positions, both of which the sampler produces. *)
Lemma C5_witness :
  ∃ enough, ∀ fuel, (enough ≤ fuel)%nat →
    ∃ s' out,
      onPlayerCollideWithCollectible Throws 4 Demo.generateStartPos
          Demo.nanoid
              Demo.plusOther fuel "A" Demo.A Demo.withA = Done tt s' out ∨
      (Throws = Throws ∧ players Demo.withA !! Player.id Demo.A = None ∧
       onPlayerCollideWithCollectible Throws 4 Demo.generateStartPos
           Demo.nanoid
               Demo.plusOther fuel "A" Demo.A Demo.withA = Uncaught NotFound s' out).
Proof.
  apply (C5_resampling_terminates
           Throws 4 Demo.generateStartPos Demo.nanoid Demo.plusOther
           [ {| Pos.x := 5; Pos.y := 5 |}; {| Pos.x := 2; Pos.y := 7 |} ]
           "A" Demo.A Demo.withA).
  - exists {| Pos.x := 2; Pos.y := 7 |}. split; [|discriminate].
    apply list_elem_of_In. cbn. auto.
  - intros p Hp. apply list_elem_of_In in Hp. cbn in Hp.
    destruct Hp as [<-|[<-|[]]]; [now exists 0%nat|now exists 1%nat].
Defined.

(** Two collisions from sprite 2 of 4: the index is 0 afterwards. *)
Lemma C6_witness :
  ∃ s' out,
    run Throws 4 Demo.generateStartPos Demo.nanoid Demo.plusOther 1
        [joinGame "A" Demo.A;
         playerCollideWithCollectible "A" Demo.A;
         playerStateChange "A" (Player.with_score Demo.A (Score.Int 10));
         playerCollideWithCollectible "A"
             (Player.with_score Demo.A (Score.Int 10))]
        Demo.start = Done tt s' out ∧
    Collectible.spriteSrcIndex (collectible s') = 0 ∧
    Collectible.spriteSrcIndex (collectible s') =
      (Collectible.spriteSrcIndex (collectible Demo.start) + Z.of_nat 2)
        mod 4 ∧
    idCalls s' = (idCalls Demo.start + 2)%nat.
Proof.
  pose (r := run Throws 4 Demo.generateStartPos Demo.nanoid Demo.plusOther 1
               [joinGame "A" Demo.A;
                playerCollideWithCollectible "A" Demo.A;
                playerStateChange "A" (Player.with_score Demo.A (Score.Int 10));
                playerCollideWithCollectible "A"
                    (Player.with_score Demo.A (Score.Int 10))]
               Demo.start).
  assert (r = Done tt (default Demo.start (final r)) (sent r)) as Hrun
      by (vm_compute; reflexivity).
  exists (default Demo.start (final r)), (sent r).
  split; [exact Hrun|]. split; [vm_compute; reflexivity|].
  assert (0 ≤ Collectible.spriteSrcIndex (collectible Demo.start) < 4)
    as Hrange by (cbn; lia).
  exact (C6_sprite_index_cycles
           Throws 4 Demo.generateStartPos Demo.nanoid Demo.plusOther 1
           [joinGame "A" Demo.A;
            playerCollideWithCollectible "A" Demo.A;
            playerStateChange "A" (Player.with_score Demo.A (Score.Int 10));
            playerCollideWithCollectible "A"
                (Player.with_score Demo.A (Score.Int 10))]
           Demo.start _ _ Hrange Hrun).
Defined.

(** After A has joined, whatever an honest client sends next, no stored
    score goes down. *)
Lemma C7_witness :
  scoresNonNegative Demo.withA ∧
  ∀ fuel e s' out cid stored stored',
    honest Demo.withA e →
    handle Throws 4 Demo.generateStartPos Demo.nanoid Demo.plusOther fuel e
        Demo.withA = Done tt s' out →
    players Demo.withA !! cid = Some stored →
    players s' !! cid = Some stored' →
    Score.le (Player.score stored) (Player.score stored').
Proof.
  apply (C7_honest_scores_grow
           Throws 4 Demo.generateStartPos Demo.nanoid Demo.plusOther 2 10
           Demo.withA).
  - lia.
  - apply (after_event Throws 4 Demo.generateStartPos Demo.nanoid
             Demo.plusOther 2 10
             (boot Demo.generateStartPos Demo.nanoid 2 10) 0%nat
             (joinGame "A" Demo.A) Demo.withA
             (sent (onJoinGame "A" Demo.A Demo.start))).
    + apply at_boot.
    + split; [exists 0; split; [reflexivity|lia]|].
      intros stored Hstored. vm_compute in Hstored. discriminate.
    + vm_compute. reflexivity.
Defined.

(** What a payload reports is stored as it comes. A reports -5 in a
    [playerStateChange]: the stored score, which was 0, is -5 afterwards. A
    client that has scored, and moves before [scored] has reached it,
    reports its old score: the stored score goes from 10 back to 0. A
    reports the fraction 0.5: the stored score is no integer. M, who holds
    the largest double, honestly reports a collision worth 2^970: the stored
    score is [Infinity]. And with a collectible worth -1 an honest collision
    takes A's score from 0 to -1. *)
Lemma C7_counterexample_reported_score_is_stored :
  ∃ s' s1 s2 s3 s4 s5,
    final (onPlayerStateChange Throws "A"
             (Player.with_score Demo.A (Score.Int (-5))) Demo.withA)
      = Some s' ∧
    Player.score <$> players Demo.withA !! "A" = Some (Score.Int 0) ∧
    Player.score <$> players s' !! "A" = Some (Score.Int (-5)) ∧
    final (onPlayerCollideWithCollectible Throws 4 Demo.generateStartPos
             Demo.nanoid Demo.plusOther 1 "A" Demo.A Demo.withA) = Some s1 ∧
    final (onPlayerStateChange Throws "A" Demo.A s1) = Some s2 ∧
    Player.score <$> players s1 !! "A" = Some (Score.Int 10) ∧
    Player.score <$> players s2 !! "A" = Some (Score.Int 0) ∧
    final (onPlayerStateChange Throws "A"
             (Player.with_score Demo.A (Score.Other "0.5")) Demo.withA)
      = Some s3 ∧
    Player.score <$> players s3 !! "A" = Some (Score.Other "0.5") ∧
    final (run Throws 4 Demo.generateStartPos Demo.nanoid Demo.plusOther 1
             [joinGame "M" Demo.M; playerCollideWithCollectible "M" Demo.M]
             (boot Demo.generateStartPos Demo.nanoid 2 (2 ^ 970)))
      = Some s4 ∧
    Player.score <$> players s4 !! "M" = Some (Score.Other "Infinity") ∧
    final (run Throws 4 Demo.generateStartPos Demo.nanoid Demo.plusOther 1
             [joinGame "A" Demo.A; playerCollideWithCollectible "A" Demo.A]
             (boot Demo.generateStartPos Demo.nanoid 2 (-1)))
      = Some s5 ∧
    Player.score <$> players s5 !! "A" = Some (Score.Int (-1)).
Proof.
  pose (r := onPlayerStateChange Throws "A"
               (Player.with_score Demo.A (Score.Int (-5))) Demo.withA).
  pose (r1 := onPlayerCollideWithCollectible Throws 4 Demo.generateStartPos
                Demo.nanoid Demo.plusOther 1 "A" Demo.A Demo.withA).
  pose (s1 := default Demo.start (final r1)).
  pose (r2 := onPlayerStateChange Throws "A" Demo.A s1).
  pose (r3 := onPlayerStateChange Throws "A"
                (Player.with_score Demo.A (Score.Other "0.5")) Demo.withA).
  pose (r4 := run Throws 4 Demo.generateStartPos Demo.nanoid Demo.plusOther 1
                [joinGame "M" Demo.M; playerCollideWithCollectible "M" Demo.M]
                (boot Demo.generateStartPos Demo.nanoid 2 (2 ^ 970))).
  pose (r5 := run Throws 4 Demo.generateStartPos Demo.nanoid Demo.plusOther 1
                [joinGame "A" Demo.A; playerCollideWithCollectible "A" Demo.A]
                (boot Demo.generateStartPos Demo.nanoid 2 (-1))).
  exists (default Demo.start (final r)), s1, (default Demo.start (final r2)),
    (default Demo.start (final r3)), (default Demo.start (final r4)),
    (default Demo.start (final r5)).
  repeat split; vm_compute; reflexivity.
Qed.

(** The collision of A: A receives [scored] and [collectible], B receives
    [opponentStateChange] and [collectible]. *)
Lemma C9_witness :
  ∃ s' out updated,
    onPlayerCollideWithCollectible Throws 4 Demo.generateStartPos
        Demo.nanoid Demo.plusOther
        1 "A" Demo.A Demo.withA = Done tt s' out ∧
    inbox "A" out = [Msg.scored (Score.Int 10);
                     Msg.collectible (collectible s')] ∧
    inbox "B" out = [Msg.opponentStateChange updated;
                     Msg.collectible (collectible s')] ∧
    ∀ connection,
      inbox connection out =
        if bool_decide (connection = "A")
        then [Msg.scored
                (plusAssign Demo.plusOther (Player.score Demo.A)
                   (Collectible.value (collectible Demo.withA)));
              Msg.collectible (collectible s')]
        else [Msg.opponentStateChange updated;
              Msg.collectible (collectible s')].
Proof.
  pose (r := onPlayerCollideWithCollectible Throws 4 Demo.generateStartPos
               Demo.nanoid Demo.plusOther 1 "A" Demo.A Demo.withA).
  assert (r = Done tt (default Demo.start (final r)) (sent r)) as Hrun
      by (vm_compute; reflexivity).
  destruct (C9_collision_scopes
              Throws 4 Demo.generateStartPos Demo.nanoid
                  Demo.plusOther 1 "A" Demo.A
              Demo.withA _ _ Hrun) as (updated & Hout & Hinbox).
  exists (default Demo.start (final r)), (sent r), updated.
  split; [exact Hrun|]. split; [exact (Hinbox "A")|].
  split; [exact (Hinbox "B")|exact Hinbox].
Defined.

(** After a join, two collisions and a disconnect of a connection that
    never joined, which ends the run with an exception, the collectible is
    still worth 10. *)
Lemma C10_witness :
  ∃ s',
    final (run ReturnsUndefined 4 Demo.generateStartPos Demo.nanoid
        Demo.plusOther 1
             [joinGame "A" Demo.A;
              playerCollideWithCollectible "A" Demo.A;
              playerCollideWithCollectible "B" Demo.B;
              disconnect "C"] Demo.start) = Some s' ∧
    idCalls s' = 3%nat ∧
    Collectible.value (collectible s') =
      Collectible.value (collectible Demo.start).
Proof.
  pose (r := run ReturnsUndefined 4 Demo.generateStartPos Demo.nanoid
      Demo.plusOther 1
               [joinGame "A" Demo.A;
                playerCollideWithCollectible "A" Demo.A;
                playerCollideWithCollectible "B" Demo.B;
                disconnect "C"] Demo.start).
  assert (final r = Some (default Demo.start (final r))) as Hfinal
      by (vm_compute; reflexivity).
  exists (default Demo.start (final r)).
  split; [exact Hfinal|]. split; [vm_compute; reflexivity|].
  exact (C10_respawn_keeps_value
           ReturnsUndefined 4 Demo.generateStartPos Demo.nanoid
               Demo.plusOther 1 _
           Demo.start _ Hfinal).
Defined.

(** ** The further properties at concrete inputs *)

(** A leaves: B is told, A is not, and the registry is empty again. *)
Lemma X2_witness :
  ∃ s' out,
    onDisconnect Throws "A" Demo.withA = Done tt s' out ∧
    players s' !! "A" = None ∧
    (∀ cid, cid ≠ "A" → players s' !! cid = players Demo.withA !! cid) ∧
    collectible s' = collectible Demo.withA ∧
    ∀ connection,
      inbox connection out =
        if bool_decide (connection = "A")
        then []
        else [Msg.opponentLeave "A"].
Proof.
  apply (X2_disconnect_removes_and_announces Throws "A" Demo.withA Demo.A).
  - apply (reachable_keys Throws 4 Demo.generateStartPos Demo.nanoid
      Demo.plusOther 2 10).
    exists 0%nat, [joinGame "A" Demo.A],
      (sent (run Throws 4 Demo.generateStartPos Demo.nanoid Demo.plusOther 0
               [joinGame "A" Demo.A] Demo.start)).
    vm_compute. reflexivity.
  - vm_compute. reflexivity.
Defined.

(** B joins the game A is in and leaves it again. *)
Lemma X3_witness :
  run ReturnsUndefined 4 Demo.generateStartPos Demo.nanoid Demo.plusOther 0
      [joinGame "B" Demo.B; disconnect "B"] Demo.withA =
    Done tt Demo.withA
      [Emit (ToSender "B")
            (Msg.currentOpponents (Registry.all (players Demo.withA)));
       Emit (ToSender "B") (Msg.collectible (collectible Demo.withA));
       Emit (ToOthers "B") (Msg.newOpponent Demo.B);
       Emit (ToOthers "B") (Msg.opponentLeave "B")].
Proof.
  apply (X3_join_then_disconnect_restores
           ReturnsUndefined 4 Demo.generateStartPos Demo.nanoid Demo.plusOther 0
           "B" Demo.B Demo.withA).
  - reflexivity.
  - vm_compute. reflexivity.
Defined.

(** A joins, moves and leaves, and a connection that never joined leaves:
    the last handler throws, and the collectible is the one of the start. *)
Lemma X4_witness :
  ∃ s',
    final (run ReturnsUndefined 4 Demo.generateStartPos Demo.nanoid
        Demo.plusOther 0
             [joinGame "A" Demo.A; playerStateChange "A" Demo.A;
              disconnect "A"; disconnect "C"] Demo.start) = Some s' ∧
    collectible s' = collectible Demo.start ∧
    posCalls s' = posCalls Demo.start ∧
    idCalls s' = idCalls Demo.start.
Proof.
  pose (r := run ReturnsUndefined 4 Demo.generateStartPos Demo.nanoid
      Demo.plusOther 0
               [joinGame "A" Demo.A; playerStateChange "A" Demo.A;
                disconnect "A"; disconnect "C"] Demo.start).
  assert (final r = Some (default Demo.withA (final r))) as Hfinal
      by (vm_compute; reflexivity).
  exists (default Demo.withA (final r)). split; [exact Hfinal|].
  exact (X4_only_collisions_touch_collectible
           ReturnsUndefined 4 Demo.generateStartPos Demo.nanoid Demo.plusOther 0
           [joinGame "A" Demo.A; playerStateChange "A" Demo.A;
            disconnect "A"; disconnect "C"] Demo.start _ eq_refl Hfinal).
Defined.

(** The collision of A: the draw of line 91 is (5,5) and is rejected, the
    next one is (2,7). *)
Lemma X5_witness :
  ∃ s' out,
    onPlayerCollideWithCollectible Throws 4 Demo.generateStartPos
        Demo.nanoid Demo.plusOther
        3 "A" Demo.A Demo.withA = Done tt s' out ∧
    posCalls s' = 3%nat ∧
    ∃ k, (k ≤ 3)%nat ∧
         position (collectible s') =
           Demo.generateStartPos (posCalls Demo.withA + k) ∧
         samePos (Demo.generateStartPos (posCalls Demo.withA + k))
                 (collectible Demo.withA) = false ∧
         posCalls s' = (posCalls Demo.withA + S k)%nat ∧
         ∀ j, (j < k)%nat →
              samePos (Demo.generateStartPos (posCalls Demo.withA + j))
                      (collectible Demo.withA) = true.
Proof.
  pose (r := onPlayerCollideWithCollectible Throws 4 Demo.generateStartPos
               Demo.nanoid Demo.plusOther 3 "A" Demo.A Demo.withA).
  assert (r = Done tt (default Demo.start (final r)) (sent r)) as Hrun
      by (vm_compute; reflexivity).
  exists (default Demo.start (final r)), (sent r).
  split; [exact Hrun|]. split; [vm_compute; reflexivity|].
  exact (X5_collision_takes_first_differing_draw
           Throws 4 Demo.generateStartPos Demo.nanoid
               Demo.plusOther 3 "A" Demo.A
           Demo.withA _ _ Hrun).
Defined.

(** Two collisions: the tokens broadcast are the second and the third one
    of the generator. *)
Lemma X6_witness :
  ∃ s' out,
    run Throws 4 Demo.generateStartPos Demo.nanoid Demo.plusOther 1
        [joinGame "A" Demo.A;
         playerCollideWithCollectible "A" Demo.A;
         playerCollideWithCollectible "A" Demo.A] Demo.start =
      Done tt s' out ∧
    broadcastTokens out = ["a"; "aa"] ∧
    broadcastTokens out =
      Demo.nanoid <$> seq (idCalls Demo.start) 2 ∧
    NoDup (broadcastTokens out).
Proof.
  pose (r := run Throws 4 Demo.generateStartPos Demo.nanoid Demo.plusOther 1
               [joinGame "A" Demo.A;
                playerCollideWithCollectible "A" Demo.A;
                playerCollideWithCollectible "A" Demo.A] Demo.start).
  assert (r = Done tt (default Demo.start (final r)) (sent r)) as Hrun
      by (vm_compute; reflexivity).
  exists (default Demo.start (final r)), (sent r).
  split; [exact Hrun|]. split; [vm_compute; reflexivity|].
  destruct (X6_broadcast_tokens_are_the_drawn_ones
              Throws 4 Demo.generateStartPos Demo.nanoid Demo.plusOther 1
              [joinGame "A" Demo.A;
               playerCollideWithCollectible "A" Demo.A;
               playerCollideWithCollectible "A" Demo.A]
              Demo.start _ _ Hrun) as [Htokens Hdistinct].
  split; [exact Htokens|].
  apply Hdistinct. intros i j. apply demo_nanoid_injective.
Defined.

(** A collides, B joins and receives the respawned collectible, a third
    connection leaves without having joined. *)
Lemma X7_witness :
  ∃ s',
    final (run ReturnsUndefined 4 Demo.generateStartPos Demo.nanoid
        Demo.plusOther 1
             [joinGame "A" Demo.A;
              playerCollideWithCollectible "A" Demo.A;
              joinGame "B" Demo.B; disconnect "C"] Demo.start) = Some s' ∧
    Collectible.id (collectible s') = "a" ∧
    default (collectible Demo.start)
      (last (collectiblesSent
               (sent (run ReturnsUndefined 4 Demo.generateStartPos
                        Demo.nanoid Demo.plusOther 1
                        [joinGame "A" Demo.A;
                         playerCollideWithCollectible "A" Demo.A;
                         joinGame "B" Demo.B; disconnect "C"] Demo.start))))
      = collectible s'.
Proof.
  pose (r := run ReturnsUndefined 4 Demo.generateStartPos Demo.nanoid
      Demo.plusOther 1
               [joinGame "A" Demo.A;
                playerCollideWithCollectible "A" Demo.A;
                joinGame "B" Demo.B; disconnect "C"] Demo.start).
  assert (final r = Some (default Demo.start (final r))) as Hfinal
      by (vm_compute; reflexivity).
  exists (default Demo.start (final r)).
  split; [exact Hfinal|]. split; [vm_compute; reflexivity|].
  exact (X7_last_collectible_message_is_current
           ReturnsUndefined 4 Demo.generateStartPos Demo.nanoid
               Demo.plusOther 1 _
           Demo.start _ Hfinal).
Defined.

(** Three collisions from sprite 2 of 4: the index is 1, a valid index. *)
Lemma X8_witness :
  ∃ s',
    final (run Throws 4 Demo.generateStartPos Demo.nanoid Demo.plusOther 1
             [joinGame "A" Demo.A;
              playerCollideWithCollectible "A" Demo.A;
              playerCollideWithCollectible "A" Demo.A;
              playerCollideWithCollectible "A" Demo.A] Demo.start)
      = Some s' ∧
    Collectible.spriteSrcIndex (collectible s') = 1 ∧
    0 ≤ Collectible.spriteSrcIndex (collectible s') < 4.
Proof.
  pose (r := run Throws 4 Demo.generateStartPos Demo.nanoid Demo.plusOther 1
               [joinGame "A" Demo.A;
                playerCollideWithCollectible "A" Demo.A;
                playerCollideWithCollectible "A" Demo.A;
                playerCollideWithCollectible "A" Demo.A] Demo.start).
  assert (final r = Some (default Demo.start (final r))) as Hfinal
      by (vm_compute; reflexivity).
  assert (0 ≤ Collectible.spriteSrcIndex (collectible Demo.start) < 4)
    as Hrange by (cbn; lia).
  exists (default Demo.start (final r)).
  split; [exact Hfinal|]. split; [vm_compute; reflexivity|].
  exact (X8_sprite_index_stays_in_range
           Throws 4 Demo.generateStartPos Demo.nanoid
               Demo.plusOther 1 _ Demo.start _
           Hrange Hfinal).
Defined.

(** An empty sprite list: the index starts at 0 and is 2 after two
    collisions. *)
Lemma X9_witness :
  ∃ s' out,
    run Throws 0 Demo.generateStartPos Demo.nanoid Demo.plusOther 1
        [joinGame "A" Demo.A;
         playerCollideWithCollectible "A" Demo.A;
         playerCollideWithCollectible "A" Demo.A]
        (boot Demo.generateStartPos Demo.nanoid 0 10) = Done tt s' out ∧
    Collectible.spriteSrcIndex (collectible s') = 2 ∧
    Collectible.spriteSrcIndex (collectible s') =
      Collectible.spriteSrcIndex
        (collectible (boot Demo.generateStartPos Demo.nanoid 0 10)) +
      Z.of_nat 2.
Proof.
  pose (r := run Throws 0 Demo.generateStartPos Demo.nanoid Demo.plusOther 1
               [joinGame "A" Demo.A;
                playerCollideWithCollectible "A" Demo.A;
                playerCollideWithCollectible "A" Demo.A]
               (boot Demo.generateStartPos Demo.nanoid 0 10)).
  assert (r = Done tt (default Demo.start (final r)) (sent r)) as Hrun
      by (vm_compute; reflexivity).
  assert (0 ≤ Collectible.spriteSrcIndex
                (collectible (boot Demo.generateStartPos Demo.nanoid 0 10)))
    as Hpast by (cbn; lia).
  exists (default Demo.start (final r)), (sent r).
  split; [exact Hrun|]. split; [vm_compute; reflexivity|].
  exact (X9_sprite_index_past_the_end_grows
           Throws 0 Demo.generateStartPos Demo.nanoid Demo.plusOther 1
           [joinGame "A" Demo.A;
            playerCollideWithCollectible "A" Demo.A;
            playerCollideWithCollectible "A" Demo.A]
           (boot Demo.generateStartPos Demo.nanoid 0 10) _ _ Hpast Hrun).
Defined.

(** A reports a collision with a score of 7: 17 is sent, broadcast and
    stored. *)
Lemma X10_witness :
  ∃ s' out stored',
    onPlayerCollideWithCollectible Throws 4 Demo.generateStartPos
        Demo.nanoid Demo.plusOther
        1 "A"
            (Player.with_score Demo.A (Score.Int 7)) Demo.withA = Done tt s' out ∧
    Player.score stored' = Score.Int 17 ∧
    players s' !! "A" = Some stored' ∧
    out = [Emit (ToSender "A") (Msg.scored (Player.score stored'));
           Emit (ToOthers "A") (Msg.opponentStateChange (Some stored'));
           Emit ToAll (Msg.collectible (collectible s'))] ∧
    ∀ cid, cid ≠ "A" → players s' !! cid = players Demo.withA !! cid.
Proof.
  pose (r := onPlayerCollideWithCollectible Throws 4 Demo.generateStartPos
               Demo.nanoid Demo.plusOther 1 "A"
               (Player.with_score Demo.A (Score.Int 7)) Demo.withA).
  assert (r = Done tt (default Demo.start (final r)) (sent r)) as Hrun
      by (vm_compute; reflexivity).
  destruct (X10_collision_score_is_told_as_stored
              Throws 4 Demo.generateStartPos Demo.nanoid Demo.plusOther 1 "A"
              (Player.with_score Demo.A (Score.Int 7)) Demo.withA Demo.A _ _
              eq_refl Hrun)
    as (stored' & Hstored & Hscore & _ & Hout & Hframe).
  exists (default Demo.start (final r)), (sent r), stored'.
  split; [exact Hrun|]. split; [exact Hscore|].
  split; [exact Hstored|]. split; [exact Hout|exact Hframe].
Defined.
